(** * lektor-algolia: the Algolia publisher of a Lektor site

    A shallow embedding of [lektor_algolia.py].  The plugin registers a
    publisher that reads every page of the Lektor project, lists the
    object ids already stored in an Algolia index, deletes the stale ones
    and re-submits every local record.

    Python values are modelled by a small universe of dynamically typed
    values, exceptions by a sum type, and the publisher's effects (the
    calls on the Algolia client, the messages the generator yields and
    the mutation of the environment's credential dict) by a state and
    error monad over an explicit store and call trace. *)

From Stdlib Require Import Ascii.
From stdpp Require Import gmap strings list fin_maps pretty.

Set Warnings "-register-all".
Open Scope string_scope.

(** ** Python values *)

(** The hashable scalars that occur in the program: [None], [int], [str]. *)
Inductive atom :=
  | ANone
  | AInt (z : Z)
  | AStr (s : string).

#[global] Instance atom_eq_dec : EqDecision atom.
Proof. solve_decision. Defined.

#[global] Instance atom_countable : Countable atom.
Proof.
  refine (inj_countable'
    (λ a, match a with
          | ANone => inl ()
          | AInt z => inr (inl z)
          | AStr s => inr (inr s)
          end)
    (λ x, match x with
          | inl _ => ANone
          | inr (inl z) => AInt z
          | inr (inr s) => AStr s
          end) _).
  by intros [].
Defined.

(** JSON-like values: scalars, lists and dicts with [str] keys. *)
Inductive value :=
  | VAtom (a : atom)
  | VList (l : list value)
  | VDict (d : gmap string value).

Abbreviation VNone := (VAtom ANone).
Abbreviation VInt z := (VAtom (AInt z)).
Abbreviation VStr s := (VAtom (AStr s)).

(** The exceptions the program raises or lets through. *)
Inductive exn :=
  | KeyError (key : string)
  | TypeError
  | IndexError
  | AttributeError
  | AlgoliaException (msg : string)
  | PublishError (msg : string).

#[global] Instance exn_eq_dec : EqDecision exn.
Proof. solve_decision. Defined.

(** A computation that returns or raises. *)
Definition result (A : Type) : Type := exn + A.

Definition ok {A} (a : A) : result A := inr a.
Definition raise {A} (e : exn) : result A := inl e.

#[global] Instance result_ret : MRet result := λ A a, inr a.
#[global] Instance result_bind : MBind result := λ A B f m,
  match m with
  | inl e => inl e
  | inr a => f a
  end.

Definition is_ok {A} (r : result A) : bool :=
  match r with inr _ => true | inl _ => false end.

(** [bool(v)] *)
Definition truthy (v : value) : bool :=
  match v with
  | VNone => false
  | VInt z => negb (z =? 0)%Z
  | VStr s => negb (String.eqb s "")
  | VList l => match l with [] => false | _ => true end
  | VDict d => negb (bool_decide (d = ∅))
  end.

(** [v[key]] for a [str] key: only a dict can be subscripted by a string. *)
Definition getitem (v : value) (key : string) : result value :=
  match v with
  | VDict d =>
      match d !! key with
      | Some x => ok x
      | None => raise (KeyError key)
      end
  | _ => raise TypeError
  end.

(** The single-character strings of [s], as iterating a [str] yields them. *)
Fixpoint chars (s : string) : list value :=
  match s with
  | EmptyString => []
  | String c s' => VStr (String c EmptyString) :: chars s'
  end.

(** [iter(v)]: the elements of a list, the keys of a dict, the characters
    of a string; [None] and integers are not iterable. *)
Definition iterate (v : value) : result (list value) :=
  match v with
  | VList l => ok l
  | VDict d => ok ((λ kv, VStr kv.1) <$> map_to_list d)
  | VStr s => ok (chars s)
  | _ => raise TypeError
  end.

(** [hash(v)]: lists and dicts are unhashable. *)
Definition hashable (v : value) : result atom :=
  match v with
  | VAtom a => ok a
  | _ => raise TypeError
  end.

(** [v <= 0], defined between integers only. *)
Definition le_zero (v : value) : result bool :=
  match v with
  | VInt z => ok (z <=? 0)%Z
  | _ => raise TypeError
  end.

(** [range(1, v)]: the indices [1 .. v - 1]; the bound must be an [int]. *)
Definition range_from_1 (v : value) : result (list Z) :=
  match v with
  | VInt z => ok (seqZ 1 (z - 1))
  | _ => raise TypeError
  end.

(** ** The content store (Lektor) *)

(** The non-markdown values a field holds, with their [str()] form. *)
Inductive pyobj :=
  | Undefined
  | Text (s : string)
  | Integer (z : Z)
  | Boolean (b : bool).

Definition str (o : pyobj) : string :=
  match o with
  | Undefined => ""
  | Text s => s
  | Integer z => pretty z
  | Boolean true => "True"
  | Boolean false => "False"
  end.

(** A field value: a [lektor.types.formats.Markdown] object, which carries
    its source text next to the rendered HTML, or any other value. *)
Inductive field_value :=
  | Markdown (source html : string)
  | Other (o : pyobj).

(** One entry of [model.to_json(pad, record)["fields"]]. *)
Record model_field := {
  name : string;
  type : string;
}.

(** A [lektor.db.Record]: the system fields [_gid] and [_path], the field
    list of its data model, its field data and its child records. *)
Inductive db_record := mk_record {
  gid : string;
  path : string;
  datamodel_fields : list model_field;
  data : gmap string field_value;
  children : list db_record;
}.

Record Pad := { root : db_record }.

(** A record sent to the index: a dict from [str] to [str]. *)
Abbreviation document := (gmap string string).

(** [record[field_name]] *)
Definition record_getitem (record : db_record) (field_name : string)
  : result field_value :=
  match data record !! field_name with
  | Some val => ok val
  | None => raise (KeyError field_name)
  end.

Definition is_indexable (record : db_record) : bool := true.

Definition is_public_field (field : model_field) : result bool :=
  let name := name field in
  match name with
  | EmptyString => raise IndexError
  | String c _ => ok (negb (Ascii.eqb c "_"%char) && negb (String.eqb name "indexed"))
  end.

Fixpoint public_field_names (model_fields : list model_field)
  : result (list string) :=
  match model_fields with
  | [] => ok []
  | field :: rest =>
      keep ← is_public_field field;
      names ← public_field_names rest;
      ok (if keep : bool then name field :: names else names)
  end.

Definition stringify (record : db_record) (field_name : string)
  : result string :=
  val ← record_getitem record field_name;
  match val with
  | Markdown source _ => ok source
  | Other o => ok (str o)
  end.

(** The dict comprehension of [get_all_records]: later entries overwrite
    earlier ones with the same name. *)
Fixpoint stringify_fields (child : db_record) (names : list string)
    (acc : document) : result document :=
  match names with
  | [] => ok acc
  | field_name :: rest =>
      s ← stringify child field_name;
      stringify_fields child rest (<[field_name := s]> acc)
  end.

(** The body of the loop of [get_all_records] for one indexable child. *)
Definition child_data (pad : Pad) (child : db_record) : result document :=
  model_field_names ← public_field_names (datamodel_fields child);
  child_data ← stringify_fields child model_field_names ∅;
  let child_data := <["objectID" := gid child]> child_data in
  let child_data := <["_path" := path child]> child_data in
  ok child_data.

Fixpoint get_all_records (pad : Pad) (record : db_record)
  : result (list document) :=
  (fix loop (cs : list db_record) : result (list document) :=
     match cs with
     | [] => ok []
     | child :: rest =>
         own ← (if is_indexable child
                then d ← child_data pad child; ok [d]
                else ok []);
         below ← get_all_records pad child;
         records ← loop rest;
         ok (own ++ below ++ records)%list
     end) (children record).

Definition list_local (pad : Pad) : result (list document) :=
  get_all_records pad (root pad).

(** ** The Algolia client and the publisher's effects *)

(** A call on the Algolia client or a message yielded by [publish], in the
    order in which a full consumption of the generator produces them. *)
Inductive event :=
  | Create (app_id api_key : value)
  | InitIndex (index_name : string)
  | Search (index : string) (page : option Z)
  | DeleteObjects (index : string) (object_ids : list atom)
  | SaveObjects (index : string) (objects : list document)
  | Close
  | Yield (message : string).

(** The answers of the remote service.  [search] is asked with the page
    index of the request ([None] for the first request, which names no
    page); the batch operations answer with the [raw_responses] of their
    [IndexingResponse]. *)
Record service := {
  create : value → value → result unit;
  init_index : string → result unit;
  search : string → option Z → result value;
  delete_objects : string → list atom → result (list value);
  save_objects : string → list document → result (list value);
}.

(** Dict objects that are shared by reference live in a store. *)
Abbreviation loc := positive.

Record state := {
  heap : gmap loc (gmap string value);
  algolia_credentials : option loc;
  calls : list event;
}.

Definition M (A : Type) : Type := state → result A * state.

#[global] Instance M_ret : MRet M := λ A a s, (inr a, s).
#[global] Instance M_bind : MBind M := λ A B f m s,
  match m s with
  | (inl e, s') => (inl e, s')
  | (inr a, s') => f a s'
  end.

Definition lift {A} (r : result A) : M A := λ s, (r, s).

Definition emit (e : event) : M unit := λ s,
  (inr (), {| heap := heap s;
              algolia_credentials := algolia_credentials s;
              calls := (calls s ++ [e])%list |}).

(** A call on the client: it is recorded, then returns or raises. *)
Definition call {A} (e : event) (answer : result A) : M A :=
  emit e;; lift answer.

Definition yield (message : string) : M unit := emit (Yield message).

(** [{}]: a new dict object. *)
Definition new_dict : M loc := λ s,
  let l := fresh (dom (heap s)) in
  (inr l, {| heap := <[l := ∅]> (heap s);
             algolia_credentials := algolia_credentials s;
             calls := calls s |}).

(** [d[key] = v] on the dict object at [l]. *)
Definition dict_setitem (l : loc) (key : string) (v : value) : M unit := λ s,
  (inr (), {| heap := alter (insert key v) l (heap s);
              algolia_credentials := algolia_credentials s;
              calls := calls s |}).

(** The dict object at [l], as it is now. *)
Definition dict_read (l : loc) : M (gmap string value) := λ s,
  (inr (default ∅ (heap s !! l)), s).

Definition set_algolia_credentials (l : loc) : M unit := λ s,
  (inr (), {| heap := heap s;
              algolia_credentials := Some l;
              calls := calls s |}).

(** [self.env.algolia_credentials] *)
Definition get_algolia_credentials : M loc := λ s,
  match algolia_credentials s with
  | Some l => (inr l, s)
  | None => (inl AttributeError, s)
  end.

(** [config.get(key)] on the plugin's ini file. *)
Definition config_get (config : gmap string string) (key : string) : value :=
  match config !! key with
  | Some s => VStr s
  | None => VNone
  end.

Definition on_setup_env (config : gmap string string) : M unit :=
  credentials ← new_dict;
  set_algolia_credentials credentials;;
  dict_setitem credentials "app_id" (config_get config "app_id");;
  dict_setitem credentials "api_key" (config_get config "api_key").

Definition merge_credentials (config_creds : loc) (cli_creds : value) : M loc :=
  let merged_creds := config_creds in
  (if truthy cli_creds then
     username ← lift (getitem cli_creds "username");
     (if truthy username
      then dict_setitem merged_creds "app_id" username
      else mret ());;
     password ← lift (getitem cli_creds "password");
     (if truthy password
      then dict_setitem merged_creds "api_key" password
      else mret ());;
     key ← lift (getitem cli_creds "key");
     (if truthy key
      then dict_setitem merged_creds "api_key" key
      else mret ())
   else mret ());;
  mret merged_creds.

Definition dquote : string := String "034"%char "".

Definition could_not_connect : string :=
  "Could not connect to Algolia. " ++
  "Make sure api_key and app_id are present in your configs/algolia.ini file.".

Definition no_such_index (index_name : string) : string :=
  "Algolia index " ++ dquote ++ index_name ++ dquote ++ " does not exist, " ++
  "or the API key provided does not have access to it. " ++
  "Please create the index / verify your credentials on their website.".

(** [list(set(remote_keys) - set(local_keys))]: the elements of the set
    difference, in the order the set happens to yield them. *)
Definition keys_to_delete (remote_keys : list atom) (local_keys : gset atom)
  : list atom :=
  elements ((list_to_set remote_keys : gset atom) ∖ local_keys).

Section publisher.
Context (algolia : service).

(** [get_index] returns the index handle, here the name it was made for. *)
Definition get_index (index_name : string) (credentials : value) : M string :=
  config_creds ← get_algolia_credentials;
  merged_creds ← merge_credentials config_creds credentials;
  merged ← dict_read merged_creds;
  if bool_decide ("app_id" ∉ dom merged) || bool_decide ("api_key" ∉ dom merged)
  then lift (raise (PublishError could_not_connect))
  else
    app_id ← lift (getitem (VDict merged) "app_id");
    api_key ← lift (getitem (VDict merged) "api_key");
    call (Create app_id api_key) (create algolia app_id api_key);;
    emit (InitIndex index_name);;
    match init_index algolia index_name with
    | inr _ => mret index_name
    | inl (AlgoliaException _) =>
        lift (raise (PublishError (no_such_index index_name)))
    | inl e => lift (raise e)
    end.

(** The set comprehension over the hits. *)
Fixpoint object_ids (hits : list value) (acc : gset atom) : result (gset atom) :=
  match hits with
  | [] => ok acc
  | hit :: rest =>
      object_id ← getitem hit "objectID";
      a ← hashable object_id;
      object_ids rest (acc ∪ {[a]})
  end.

Definition hit_object_ids (search_page : value) : result (gset atom) :=
  hits ← getitem search_page "hits";
  hits ← iterate hits;
  object_ids hits ∅.

(** The loop of [list_remote_keys] over the page indices still to fetch. *)
Fixpoint next_pages (index : string) (pages : list Z)
    (all_object_ids : gset atom) : M (gset atom) :=
  match pages with
  | [] => mret all_object_ids
  | i :: rest =>
      next_page ← call (Search index (Some i)) (search algolia index (Some i));
      nb_hits ← lift (getitem next_page "nbHits");
      stop ← lift (le_zero nb_hits);
      if stop : bool then mret all_object_ids
      else
        hits ← lift (getitem next_page "hits");
        next_page_hits ← lift (hit_object_ids hits);
        next_pages index rest (all_object_ids ∪ next_page_hits)
  end.

Definition list_remote_keys (index : string) : M (list atom) :=
  let all_object_ids : gset atom := ∅ in
  first_page ← call (Search index None) (search algolia index None);
  first_page_hits ← lift (hit_object_ids first_page);
  let all_object_ids := all_object_ids ∪ first_page_hits in
  page_count ← lift (getitem first_page "nbPages");
  pages ← lift (range_from_1 page_count);
  all_object_ids ← next_pages index pages all_object_ids;
  mret (elements all_object_ids).

(** [{record["objectID"] for record in local}] *)
Fixpoint local_object_ids (local : list document) (acc : gset atom)
  : result (gset atom) :=
  match local with
  | [] => ok acc
  | record :: rest =>
      match record !! "objectID" with
      | Some object_id => local_object_ids rest (acc ∪ {[AStr object_id]})
      | None => raise (KeyError "objectID")
      end
  end.

Record url := { netloc : string }.

(** The project that [Project.discover()] finds, by its pad. *)
Context (pad : Pad).

Definition publish (target_url : url) (credentials : value) : M unit :=
  let index_name := netloc target_url in
  index ← get_index index_name credentials;
  local ← lift (list_local pad);
  local_keys ← lift (local_object_ids local ∅);
  yield ("Found " ++ pretty (length local) ++ " local records to index.");;
  remote_keys ← list_remote_keys index;
  yield ("Found " ++ pretty (length remote_keys) ++
         " existing remote records in the index.");;
  yield "Computing diff for index update...";;
  let keys_to_delete := keys_to_delete remote_keys local_keys in
  res_delete ← call (DeleteObjects index keys_to_delete)
                    (delete_objects algolia index keys_to_delete);
  let delete_count := length res_delete in
  yield ("Deleted " ++ pretty delete_count ++
         " stale records from remote index.");;
  res_add ← call (SaveObjects index local) (save_objects algolia index local);
  let add_count := length res_add in
  yield ("Finished submitting " ++ pretty add_count ++
         " new/updated records to the index.");;
  yield ("Processing the updated index is asynchronous, so Aloglia may take a " ++
         "while to reflect the changes.");;
  emit Close.

(** One deployment: the plugin is set up from its configuration, then
    the publisher runs. *)
Definition deploy (config : gmap string string) (target_url : url)
    (credentials : value) : M unit :=
  on_setup_env config;;
  publish target_url credentials.
End publisher.

Definition initial : state :=
  {| heap := ∅; algolia_credentials := None; calls := [] |}.

(** ** Notions used in the statements *)

(** The records strictly below [record], in the order of the traversal. *)
Fixpoint descendants (record : db_record) : list db_record :=
  (fix loop (cs : list db_record) : list db_record :=
     match cs with
     | [] => []
     | child :: rest => (child :: descendants child ++ loop rest)%list
     end) (children record).

(** The records reachable from [record] along child links, itself included. *)
Definition reachable (record : db_record) : list db_record :=
  record :: descendants record.

(** [below record n]: [n] is reached from [record] by one or more child links. *)
Inductive below (record : db_record) : db_record → Prop :=
  | below_child child :
      child ∈ children record → below record child
  | below_deeper child n :
      child ∈ children record → below child n → below record n.

Fixpoint tree_size (record : db_record) : nat :=
  S ((fix loop (cs : list db_record) : nat :=
        match cs with
        | [] => 0
        | child :: rest => tree_size child + loop rest
        end) (children record)).

(** [for x in xs: ys.append(f(x))], stopping at the first exception. *)
Fixpoint traverse {A B} (f : A → result B) (xs : list A) : result (list B) :=
  match xs with
  | [] => ok []
  | x :: rest =>
      y ← f x;
      ys ← traverse f rest;
      ok (y :: ys)
  end.

(** A name that starts with the marker of system fields. *)
Definition reserved (field_name : string) : Prop :=
  ∃ rest, field_name = String "_"%char rest.

(** What [stringify] is to return for a value. *)
Definition string_form (val : field_value) : string :=
  match val with
  | Markdown source _ => source
  | Other o => str o
  end.

Definition public_name (field_name : string) : Prop :=
  ¬ reserved field_name ∧ field_name ≠ "indexed".

Definition declares (record : db_record) (field_name : string) : Prop :=
  ∃ field, field ∈ datamodel_fields record ∧ name field = field_name.

(** The data model names its fields and the record holds a value for each
    public one, as Lektor builds its records. *)
Definition readable (record : db_record) : Prop :=
  ∀ field, field ∈ datamodel_fields record →
    name field ≠ "" ∧
    (public_name (name field) → is_Some (data record !! name field)).

Definition page_model : list model_field :=
  [ {| name := "title"; type := "string" |};
    {| name := "_hidden"; type := "boolean" |};
    {| name := "indexed"; type := "boolean" |};
    {| name := "body"; type := "markdown" |} ].

Definition page_data (title source html : string) : gmap string field_value :=
  <["title" := Other (Text title)]>
    (<["indexed" := Other (Boolean true)]>
       (<["body" := Markdown source html]> ∅)).

Definition first_post : db_record :=
  mk_record "g3" "/blog/first" page_model
    (page_data "First" "*hello*" "<em>hello</em>") [].

Definition blog : db_record :=
  mk_record "g2" "/blog" page_model (page_data "Blog" "posts" "<p>posts</p>")
    [first_post].

Definition about : db_record :=
  mk_record "g4" "/about" page_model (page_data "About" "# us" "<h1>us</h1>") [].

Definition home : db_record :=
  mk_record "g1" "/" page_model (page_data "Home" "welcome" "<p>welcome</p>")
    [blog; about].

Definition site : Pad := {| root := home |}.

Definition about_document : document :=
  <["_path" := "/about"]>
    (<["objectID" := "g4"]> (<["body" := "# us"]> {[ "title" := "About" ]})).

Definition is_setup (e : event) : bool :=
  match e with Create _ _ | InitIndex _ => true | _ => false end.
Definition is_search (e : event) : bool :=
  match e with Search _ _ => true | _ => false end.
Definition is_write (e : event) : bool :=
  match e with DeleteObjects _ _ | SaveObjects _ _ => true | _ => false end.

(** The page with index [i] answers, and reports no hit. *)
Definition reports_zero_hits (algolia : service) (index : string) (i : Z) : Prop :=
  ∃ next_page n,
    search algolia index (Some i) = inr next_page ∧
    getitem next_page "nbHits" = inr (VInt n) ∧ (n ≤ 0)%Z.

Definition search_page (index : string) (i : Z) : event := Search index (Some i).

(** The calls and messages of the last phase of [publish], from the batched
    delete on, as the answers of the service determine them. *)
Definition diff_calls (algolia : service) (index : string)
    (keys_to_delete : list atom) (local : list document) : list event :=
  DeleteObjects index keys_to_delete ::
  match delete_objects algolia index keys_to_delete with
  | inl _ => []
  | inr res_delete =>
      Yield ("Deleted " ++ pretty (length res_delete) ++
             " stale records from remote index.") ::
      SaveObjects index local ::
      match save_objects algolia index local with
      | inl _ => []
      | inr res_add =>
          [ Yield ("Finished submitting " ++ pretty (length res_add) ++
                   " new/updated records to the index.");
            Yield ("Processing the updated index is asynchronous, so Aloglia may take a " ++
                   "while to reflect the changes.");
            Close ]
      end
  end.

(** The outcome of that phase. *)
Definition diff_result (algolia : service) (index : string)
    (keys_to_delete : list atom) (local : list document) : result () :=
  _ ← delete_objects algolia index keys_to_delete;
  _ ← save_objects algolia index local;
  ok ().

(** The batched write requests among the calls, in order. *)
Definition writes (tr : list event) : list event := List.filter is_write tr.


(** A hit and a result page as the search endpoint returns them. *)
Definition hit (object_id : string) : value :=
  VDict {[ "objectID" := VStr object_id ]}.

Definition result_page (hits : list value) (nb_hits nb_pages : Z) : value :=
  VDict (<["hits" := VList hits]>
           (<["nbHits" := VInt nb_hits]> {[ "nbPages" := VInt nb_pages ]})).

(** The credential dict that [on_setup_env] builds from the configuration. *)
Definition config_credentials (config : gmap string string) : gmap string value :=
  <["api_key" := config_get config "api_key"]>
    (<["app_id" := config_get config "app_id"]> ∅).

(** A command-line option as a Python value: a string, or [None] when the
    option was not given. *)
Definition cli_value (given : option string) : value :=
  match given with
  | Some s => VStr s
  | None => VNone
  end.

(** The [credentials] argument of [publish]: nothing, or a dict that holds
    the three options [username], [password] and [key]. *)
Inductive cli_override
  : value → option string → option string → option string → Prop :=
  | no_credentials : cli_override VNone None None None
  | empty_credentials : cli_override (VDict ∅) None None None
  | given_credentials c username password key :
      c !! "username" = Some (cli_value username) →
      c !! "password" = Some (cli_value password) →
      c !! "key" = Some (cli_value key) →
      cli_override (VDict c) username password key.

(** The value an option supplies when it is present and not empty. *)
Definition supplied (given : option string) : option value :=
  match given with
  | Some s => if decide (s = "") then None else Some (VStr s)
  | None => None
  end.

(** The command-line value when there is one, else the configured one. *)
Definition prefer (cli config : option value) : option value :=
  match cli with
  | Some v => Some v
  | None => config
  end.

(** The answer of the batch operations: one raw response for a batch that
    is not empty. *)
Definition acknowledge {A} (objects : list A) : result (list value) :=
  match objects with
  | [] => ok []
  | _ => ok [VDict ∅]
  end.

(** An index of which every search returns [first_page], except for the
    pages listed in [others]. *)
Definition index_of (first_page : value) (others : list (Z * value)) : service :=
  {| create := λ _ _, ok ();
     init_index := λ _, ok ();
     search := λ _ page,
       match page with
       | None => ok first_page
       | Some i => ok (default first_page (list_to_map (M:=gmap Z value) others !! i))
       end;
     delete_objects := λ _ keys, acknowledge keys;
     save_objects := λ _ objects, acknowledge objects |}.

Definition one_page_index : service := index_of (result_page [hit "x1"] 1 1) [].

Definition stale_index : service :=
  index_of (result_page [hit "x1"; hit "x2"] 2 1) [].

Definition two_page_index : service :=
  index_of (result_page [hit "a"] 2 2) [(1%Z, result_page [hit "b"] 2 2)].

Definition short_index : service :=
  index_of (result_page [hit "a"] 3 3)
    [(1%Z, result_page [] 0 3); (2%Z, result_page [hit "c"] 3 3)].

Definition hello : db_record :=
  mk_record "x1" "/hello" [ {| name := "title"; type := "string" |} ]
    {[ "title" := Other (Text "Hello") ]} [].

Definition hello_document : document :=
  <["_path" := "/hello"]> (<["objectID" := "x1"]> {[ "title" := "Hello" ]}).

Definition hello_pad : Pad := {| root := mk_record "x0" "/" [] ∅ [hello] |}.

Definition target : url := {| netloc := "site" |}.

Definition configuration : gmap string string :=
  <["app_id" := "A"]> {[ "api_key" := "K" ]}.

(** The state in which the plugin has been set up from [configuration]. *)
Definition configured : state :=
  {| heap := {[ 1%positive := config_credentials configuration ]};
     algolia_credentials := Some 1%positive;
     calls := [] |}.

Definition one_page_run : result () * state :=
  publish one_page_index hello_pad target VNone configured.

Definition stale_run : result () * state :=
  publish stale_index hello_pad target VNone configured.

Definition override : value :=
  VDict (<["username" := VStr "U"]>
           (<["password" := VNone]>
              (<["key" := VStr "K2"]> {[ "key_file" := VNone ]}))).

(** Every later page that the index returns holds its hits in a list, as
    the search endpoint answers. *)
Definition hits_in_lists (algolia : service) (index : string) : Prop :=
  ∀ i next_page, search algolia index (Some i) = inr next_page →
    ∃ hits, getitem next_page "hits" = inr (VList hits).

(** A page whose data model declares a field without a name. *)
Definition nameless : db_record :=
  mk_record "x9" "/nameless"
    [ {| name := "title"; type := "string" |}; {| name := ""; type := "string" |} ]
    {[ "title" := Other (Text "No name") ]} [].

Definition broken_pad : Pad :=
  {| root := mk_record "x0" "/" [] ∅ [hello; nameless] |}.

(** A credential dict that was built without [api_key]. *)
Definition keyless : state :=
  {| heap := {[ 1%positive := {[ "app_id" := VStr "A" ]} ]};
     algolia_credentials := Some 1%positive;
     calls := [] |}.

(** An index that does not exist: resolving it fails. *)
Definition missing_index : service :=
  {| create := λ _ _, ok ();
     init_index := λ _, raise (AlgoliaException "Index does not exist");
     search := λ _ _, raise (AlgoliaException "Index does not exist");
     delete_objects := λ _ keys, acknowledge keys;
     save_objects := λ _ objects, acknowledge objects |}.

(** The run cannot get as far as the diff: the index, the local records or
    the remote keys cannot be had. *)
Definition fails_before_diff (algolia : service) (pad : Pad) (index : string)
    (credentials : value) (s : state) : Prop :=
  is_ok (get_index algolia index credentials s).1 = false ∨
  is_ok (list_local pad) = false ∨
  ∃ s1, is_ok (list_remote_keys algolia index s1).1 = false.

(** A page whose data model declares a field named [objectID]. *)
Definition lamp : db_record :=
  mk_record "g7" "/products/lamp"
    [ {| name := "title"; type := "string" |};
      {| name := "objectID"; type := "string" |} ]
    (<["title" := Other (Text "Lamp")]> {[ "objectID" := Other (Text "sku-7") ]})
    [].

(** The record that the extractor makes of [lamp]. *)
Definition lamp_document : document :=
  <["_path" := "/products/lamp"]>
    (<["objectID" := "g7"]> {[ "title" := "Lamp" ]}).

(** * Properties *)

Set Warnings "-clear-no-such-hyp,-level-tolerance".

Lemma result_bind_ok {A B} (m : result A) (f : A → result B) b :
  m ≫= f = inr b ↔ ∃ a, m = inr a ∧ f a = inr b.
Proof.
  destruct m as [e|a]; simpl; split.
  - done.
  - by intros (a & ? & _).
  - intros H. by exists a.
  - by intros (a' & [= <-] & H).
Qed.

Section db_record_ind.
Variable P : db_record → Prop.
Hypothesis step : ∀ g p fs d cs, Forall P cs → P (mk_record g p fs d cs).

Fixpoint db_record_forest_ind (record : db_record) : P record :=
  match record with
  | mk_record g p fs d cs =>
      step g p fs d cs
        ((fix all (l : list db_record) : Forall P l :=
            match l with
            | [] => Forall_nil_2 P
            | c :: l' => Forall_cons_2 P c l' (db_record_forest_ind c) (all l')
            end) cs)
  end.
End db_record_ind.

Lemma descendants_unfold record :
  descendants record = flat_map (λ child, child :: descendants child) (children record).
Proof.
  destruct record as [g p fs d cs]; simpl.
  induction cs as [|c cs IH]; simpl; [done|]. by rewrite IH.
Qed.

Lemma tree_size_descendants record :
  tree_size record = S (length (descendants record)).
Proof.
  induction record as [g p fs d cs IH] using db_record_forest_ind; simpl.
  f_equal. induction IH as [|c cs Hc _ IHcs]; simpl; [done|].
  rewrite length_app, IHcs, Hc. simpl. lia.
Qed.

Lemma below_descendants record n : n ∈ descendants record ↔ below record n.
Proof.
  split.
  - revert n. induction record as [g p fs d cs IH] using db_record_forest_ind.
    intros n. rewrite descendants_unfold. simpl. rewrite list_elem_of_In, in_flat_map.
    intros (c & Hc & Hn). apply list_elem_of_In in Hc.
    apply list_elem_of_In, elem_of_cons in Hn as [->|Hn].
    + by apply below_child.
    + apply below_deeper with c; [done|].
      rewrite Forall_forall in IH. by apply IH.
  - induction 1 as [record c Hc|record c n Hc _ IH];
      rewrite descendants_unfold, list_elem_of_In, in_flat_map;
      exists c; rewrite <- !list_elem_of_In; split; try done.
    + left.
    + by right.
Qed.

Lemma traverse_app {A B} (f : A → result B) xs ys :
  traverse f (xs ++ ys) =
    (xs' ← traverse f xs; ys' ← traverse f ys; ok (xs' ++ ys')%list).
Proof.
  induction xs as [|x xs IH]; simpl.
  - by destruct (traverse f ys).
  - destruct (f x); simpl; [done|]. rewrite IH.
    destruct (traverse f xs); simpl; [done|].
    by destruct (traverse f ys).
Qed.

Lemma traverse_length {A B} (f : A → result B) xs ys :
  traverse f xs = inr ys → length ys = length xs.
Proof.
  revert ys. induction xs as [|x xs IH]; simpl; intros ys.
  - by intros [= <-].
  - destruct (f x); simpl; [done|]. destruct (traverse f xs); simpl; [done|].
    intros [= <-]. simpl. f_equal. by apply IH.
Qed.

Lemma get_all_records_traverse pad record :
  get_all_records pad record = traverse (child_data pad) (descendants record).
Proof.
  induction record as [g p fs d cs IH] using db_record_forest_ind; simpl.
  induction IH as [|c cs Hc _ IHcs]; [done|].
  cbn [traverse]. rewrite traverse_app. unfold is_indexable.
  destruct (child_data pad c); simpl; [done|].
  rewrite Hc. destruct (traverse (child_data pad) (descendants c)); simpl; [done|].
  rewrite IHcs. by destruct (traverse _ _).
Qed.

Lemma is_public_field_spec field keep :
  is_public_field field = inr keep →
  name field ≠ "" ∧ (keep = true ↔ public_name (name field)).
Proof.
  unfold is_public_field, public_name, reserved.
  destruct (name field) as [|c rest] eqn:Hname; [done|].
  intros [= <-]. split; [done|].
  change (if (c =? "i")%char then rest =? "ndexed" else false)
    with (String.eqb (String c rest) "indexed").
  rewrite andb_true_iff, !negb_true_iff, Ascii.eqb_neq, String.eqb_neq.
  split; intros [H1 H2]; (split; [|done]).
  - intros (rest' & [= -> _]). done.
  - intros ->. apply H1. by exists rest.
Qed.

Lemma is_public_field_ok field :
  name field ≠ "" → is_ok (is_public_field field) = true.
Proof. unfold is_public_field. by destruct (name field). Qed.

Lemma public_field_names_spec model_fields names :
  public_field_names model_fields = inr names →
  ∀ field_name, field_name ∈ names ↔
    (∃ field, field ∈ model_fields ∧ name field = field_name) ∧
    public_name field_name.
Proof.
  revert names. induction model_fields as [|field rest IH]; simpl; intros names.
  - intros [= <-] f. split; [by intros ?%elem_of_nil|].
    by intros [(? & ?%elem_of_nil & _) _].
  - destruct (is_public_field field) as [|keep] eqn:Hkeep; simpl; [done|].
    destruct (public_field_names rest) as [|names'] eqn:Hrest; simpl; [done|].
    intros [= <-] f. specialize (IH _ eq_refl f).
    apply is_public_field_spec in Hkeep as [_ Hkeep].
    split.
    + intros Hf. destruct keep.
      * apply elem_of_cons in Hf as [->|Hf].
        -- split; [|by apply Hkeep]. exists field. split; [left|done].
        -- apply IH in Hf as [(fld & ? & ?) ?]. split; [|done].
           exists fld. split; [by right|done].
      * apply IH in Hf as [(fld & ? & ?) ?]. split; [|done].
        exists fld. split; [by right|done].
    + intros [(fld & [->|Hin]%elem_of_cons & <-) Hpub].
      * apply Hkeep in Hpub as ->. left.
      * assert (name fld ∈ names') by (apply IH; eauto).
        destruct keep; [by right|done].
Qed.

Lemma public_field_names_ok model_fields :
  (∀ field, field ∈ model_fields → name field ≠ "") →
  is_ok (public_field_names model_fields) = true.
Proof.
  induction model_fields as [|field rest IH]; simpl; intros Hne; [done|].
  pose proof (is_public_field_ok field (Hne _ (list_elem_of_here _ _))) as Hok.
  destruct (is_public_field field); [done|]. simpl.
  destruct (public_field_names rest); simpl; [|done].
  apply IH. intros fld ?. apply Hne. by right.
Qed.

Lemma stringify_spec record field_name s :
  stringify record field_name = inr s ↔
  (∃ source html, data record !! field_name = Some (Markdown source html) ∧ s = source) ∨
  (∃ o, data record !! field_name = Some (Other o) ∧ s = str o).
Proof.
  unfold stringify, record_getitem.
  destruct (data record !! field_name) as [[source html|o]|]; simpl; split.
  - intros [= <-]. left. eauto.
  - by intros [(? & ? & [= <- _] & ->)|(? & [=] & _)].
  - intros [= <-]. right. eauto.
  - by intros [(? & ? & [=] & _)|(? & [= <-] & ->)].
  - done.
  - by intros [(? & ? & [=] & _)|(? & [=] & _)].
Qed.

Lemma stringify_fields_spec child names acc doc :
  stringify_fields child names acc = inr doc →
  ∀ field_name s, doc !! field_name = Some s ↔
    (field_name ∈ names ∧ stringify child field_name = inr s) ∨
    (field_name ∉ names ∧ acc !! field_name = Some s).
Proof.
  revert acc. induction names as [|f0 rest IH]; simpl; intros acc.
  - intros [= <-] f s. split.
    + intros Hf. right. split; [apply not_elem_of_nil|done].
    + by intros [[?%elem_of_nil _]|[_ ?]].
  - destruct (stringify child f0) as [|s0] eqn:Hs0; simpl; [done|].
    intros Hdoc f s. rewrite (IH _ Hdoc f s). clear IH Hdoc.
    rewrite !elem_of_cons.
    destruct (decide (f = f0)) as [->|Hne].
    + rewrite lookup_insert_eq, Hs0.
      destruct (decide (f0 ∈ rest)); split; intros [[? ?]|[? ?]];
        simplify_eq; tauto.
    + rewrite lookup_insert_ne by done. tauto.
Qed.

Lemma stringify_fields_ok child names acc :
  (∀ field_name, field_name ∈ names → is_Some (data child !! field_name)) →
  is_ok (stringify_fields child names acc) = true.
Proof.
  revert acc. induction names as [|f0 rest IH]; simpl; intros acc Hdata; [done|].
  destruct (Hdata f0 (list_elem_of_here _ _)) as [val Hval].
  unfold stringify at 1, record_getitem. rewrite Hval. simpl.
  destruct val; simpl; apply IH; intros f ?; apply Hdata; by right.
Qed.

Lemma reserved_path : reserved "_path".
Proof. by eexists. Qed.

Lemma child_data_readable pad child :
  readable child → is_ok (child_data pad child) = true.
Proof.
  intros Hr. unfold child_data.
  pose proof (public_field_names_ok (datamodel_fields child)) as Hok.
  destruct (public_field_names (datamodel_fields child)) as [|names] eqn:Hnames.
  { apply Hok. intros f Hf. by apply Hr. }
  simpl.
  pose proof (stringify_fields_ok child names ∅) as Hok'.
  destruct (stringify_fields child names ∅); simpl; [|done].
  apply Hok'. intros f Hf.
  apply (public_field_names_spec _ _ Hnames) in Hf as [(fld & Hfld & <-) Hpub].
  by apply Hr.
Qed.

Lemma child_data_system_fields pad child doc :
  child_data pad child = inr doc →
  doc !! "objectID" = Some (gid child) ∧ doc !! "_path" = Some (path child).
Proof.
  unfold child_data.
  destruct (public_field_names (datamodel_fields child)); simpl; [done|].
  destruct (stringify_fields child _ ∅); simpl; [done|].
  intros [= <-]. split; [by rewrite lookup_insert_ne, lookup_insert_eq|].
  by rewrite lookup_insert_eq.
Qed.

(** Claim C8, as amended.  The record extracted from a node holds the key
    [objectID] with the node's [_gid] and the key [_path] with its [_path];
    its other keys are exactly the fields that the data model declares and
    whose name neither starts with an underscore nor is [indexed], the
    value of a markdown field being its source text and the value of any
    other field its [str()] form.  A declared field named [objectID] is
    thus not projected: the node's identifier takes its place. *)
Theorem child_data_public_fields pad child doc field_name s :
  child_data pad child = inr doc →
  field_name ≠ "objectID" → field_name ≠ "_path" →
  doc !! "objectID" = Some (gid child) ∧
  doc !! "_path" = Some (path child) ∧
  (doc !! field_name = Some s ↔
    declares child field_name ∧
    ¬ reserved field_name ∧ field_name ≠ "indexed" ∧
    ((∃ source html,
        data child !! field_name = Some (Markdown source html) ∧ s = source) ∨
     (∃ o, data child !! field_name = Some (Other o) ∧ s = str o))).
Proof.
  unfold child_data.
  destruct (public_field_names (datamodel_fields child)) as [|names] eqn:Hnames;
    simpl; [done|].
  destruct (stringify_fields child names ∅) as [|fields] eqn:Hfields;
    simpl; [done|].
  intros [= <-] Hid Hpath. split; [by rewrite lookup_insert_ne, lookup_insert_eq|].
  split; [by rewrite lookup_insert_eq|].
  rewrite !lookup_insert_ne by done.
  rewrite (stringify_fields_spec _ _ _ _ Hfields field_name s), lookup_empty.
  rewrite (public_field_names_spec _ _ Hnames field_name), stringify_spec.
  unfold declares, public_name. naive_solver.
Qed.

Lemma traverse_Forall2 {A B} (f : A → result B) xs :
  Forall (λ x, is_ok (f x) = true) xs →
  ∃ ys, traverse f xs = inr ys ∧ Forall2 (λ x y, f x = inr y) xs ys.
Proof.
  induction 1 as [|x xs Hx _ (ys & Hys & Hall)]; simpl.
  - exists []. by split.
  - destruct (f x) as [|y] eqn:Hfx; [done|]. rewrite Hys. simpl.
    exists (y :: ys). split; [done|]. by constructor.
Qed.

(** Claim C2, as amended.  For a content tree whose records are readable,
    the extractor returns one record for every node strictly below the root,
    in traversal order and at every depth; the root itself gets no record, so
    the count is the size of the tree minus one. *)
Theorem get_all_records_descendants pad record :
  Forall readable (descendants record) →
  ∃ records,
    get_all_records pad record = inr records ∧
    Forall2 (λ n doc, child_data pad n = inr doc ∧
                      doc !! "objectID" = Some (gid n))
            (descendants record) records ∧
    (∀ n, n ∈ descendants record ↔ below record n) ∧
    S (length records) = tree_size record.
Proof.
  intros Hr. rewrite get_all_records_traverse.
  destruct (traverse_Forall2 (child_data pad) (descendants record))
    as (records & Hrecords & Hall).
  { eapply Forall_impl; [exact Hr|]. intros n. apply child_data_readable. }
  exists records. split; [done|]. split; [|split].
  - eapply Forall2_impl; [exact Hall|]. intros n doc Hdoc. split; [done|].
    by apply (child_data_system_fields pad n doc Hdoc).
  - apply below_descendants.
  - rewrite tree_size_descendants. f_equal. by eapply traverse_length.
Qed.

Lemma readable_page g p title source html cs :
  readable (mk_record g p page_model (page_data title source html) cs).
Proof.
  intros field Hfield. unfold page_model in Hfield. simpl in Hfield.
  repeat (apply elem_of_cons in Hfield as [->|Hfield]);
    [..|by apply elem_of_nil in Hfield]; simpl; (split; [done|]);
    intros [Hres Hidx]; try done; try by eexists.
  exfalso. apply Hres. by eexists.
Qed.

Lemma get_all_records_descendants_witness :
  ∃ records,
    get_all_records site home = inr records ∧
    Forall2 (λ n doc, child_data site n = inr doc ∧
                      doc !! "objectID" = Some (gid n))
            (descendants home) records ∧
    (∀ n, n ∈ descendants home ↔ below home n) ∧
    S (length records) = tree_size home.
Proof.
  apply (get_all_records_descendants site home).
  change (descendants home) with [blog; first_post; about].
  repeat (apply Forall_cons_2; [apply readable_page|]).
  apply Forall_nil_2.
Defined.

(** Claim C2 fails as stated: on a site of four pages the extractor returns
    three records, not one for every node reachable from the root. *)
Lemma get_all_records_omits_root :
  ¬ ∃ records,
      get_all_records site (root site) = inr records ∧
      length records = length (reachable (root site)).
Proof.
  intros (records & Hrecords & Hlen).
  vm_compute in Hrecords. injection Hrecords as <-.
  vm_compute in Hlen. discriminate.
Qed.

Lemma child_data_public_fields_witness :
  about_document !! "objectID" = Some (gid about) ∧
  about_document !! "_path" = Some (path about) ∧
  (about_document !! "body" = Some "# us" ↔
    declares about "body" ∧
    ¬ reserved "body" ∧ "body" ≠ "indexed" ∧
    ((∃ source html,
        data about !! "body" = Some (Markdown source html) ∧ "# us" = source) ∨
     (∃ o, data about !! "body" = Some (Other o) ∧ "# us" = str o))).
Proof.
  apply (child_data_public_fields site about about_document "body" "# us").
  - vm_compute. reflexivity.
  - done.
  - done.
Defined.

Example child_data_lamp : child_data site lamp = inr lamp_document.
Proof. vm_compute. reflexivity. Qed.

(** Claim C8 fails as stated: the data model of [lamp] declares a field
    named [objectID], which neither starts with an underscore nor is
    [indexed], yet the extracted record does not hold the string form of
    that field: the assignment of the [_gid] to the key [objectID]
    overwrites it. *)
Lemma child_data_overwrites_objectID :
  ¬ ∀ doc field_name val,
      child_data site lamp = inr doc →
      declares lamp field_name →
      ¬ reserved field_name → field_name ≠ "indexed" →
      data lamp !! field_name = Some val →
      doc !! field_name = Some (string_form val).
Proof.
  intros H.
  assert (Hdoc : lamp_document !! "objectID" = Some "sku-7").
  { apply (H lamp_document "objectID" (Other (Text "sku-7"))).
    - apply child_data_lamp.
    - exists {| name := "objectID"; type := "string" |}. split; [|done].
      right. left.
    - by intros [rest [=]].
    - done.
    - reflexivity. }
  unfold lamp_document in Hdoc.
  by rewrite lookup_insert_ne, lookup_insert_eq in Hdoc.
Qed.

Lemma bind_run {A B} (m : M A) (f : A → M B) s r s' :
  (m ≫= f) s = (r, s') →
  (∃ e, m s = (inl e, s') ∧ r = inl e) ∨
  (∃ a s1, m s = (inr a, s1) ∧ f a s1 = (r, s')).
Proof.
  unfold mbind, M_bind. destruct (m s) as [[e|a] s1].
  - intros [= <- <-]. left. eauto.
  - intros H. right. eauto.
Qed.

Lemma lift_run {A} (x : result A) s r s' :
  lift x s = (r, s') → r = x ∧ s' = s.
Proof. by intros [= <- <-]. Qed.

Lemma emit_run e s r s' :
  emit e s = (r, s') →
  r = inr () ∧ heap s' = heap s ∧
  algolia_credentials s' = algolia_credentials s ∧
  calls s' = (calls s ++ [e])%list.
Proof. by intros [= <- <-]. Qed.

Lemma call_run {A} e (x : result A) s r s' :
  call e x s = (r, s') →
  r = x ∧ heap s' = heap s ∧
  algolia_credentials s' = algolia_credentials s ∧
  calls s' = (calls s ++ [e])%list.
Proof. by intros [= <- <-]. Qed.

Lemma dict_setitem_run l key v s r s' :
  dict_setitem l key v s = (r, s') →
  r = inr () ∧ heap s' = alter (insert key v) l (heap s) ∧
  algolia_credentials s' = algolia_credentials s ∧ calls s' = calls s.
Proof. by intros [= <- <-]. Qed.

(** Every path through [merge_credentials], by the shape of the override. *)
Ltac merge_paths cli_creds :=
  unfold merge_credentials, mbind, M_bind, lift, dict_setitem, mret, M_ret;
  destruct (truthy cli_creds); simpl;
  [ destruct (getitem cli_creds "username") as [?|username]; simpl;
    [|destruct (truthy username); simpl;
      (destruct (getitem cli_creds "password") as [?|password]; simpl;
       [|destruct (truthy password); simpl;
         (destruct (getitem cli_creds "key") as [?|key]; simpl;
          [|destruct (truthy key); simpl])])]
  | ].

(** What [merge_credentials] leaves in the dict it is given. *)
Lemma merge_credentials_frame config_creds cli_creds s r s' :
  merge_credentials config_creds cli_creds s = (r, s') →
  (∀ merged_creds, r = inr merged_creds → merged_creds = config_creds) ∧
  dom (heap s') = dom (heap s) ∧
  (∀ l, l ≠ config_creds → heap s' !! l = heap s !! l) ∧
  (∀ d, heap s !! config_creds = Some d →
        ∃ d', heap s' !! config_creds = Some d' ∧ dom d ⊆ dom d') ∧
  algolia_credentials s' = algolia_credentials s ∧
  calls s' = calls s.
Proof.
  merge_paths cli_creds; intros [= <- <-]; simpl;
    (split; [by intros ? [= <-]|]);
    (split; [by rewrite ?dom_alter_L|]);
    (split; [by intros l ?; rewrite ?lookup_alter_ne|]);
    (split; [|done]); intros d Hd;
    rewrite ?lookup_alter_eq, Hd; simpl; (eexists; split; [done|]);
    rewrite ?dom_insert_L; set_solver.
Qed.

(** Every path through [get_index]. *)
Ltac get_index_paths algolia index_name credentials s :=
  unfold get_index, get_algolia_credentials, dict_read, call, emit, lift;
  unfold mbind, M_bind, mret, M_ret;
  let l := fresh "l" in
  let s1 := fresh "s1" in
  let Hl := fresh "Hl" in
  let Hmerge := fresh "Hmerge" in
  let Hguard := fresh "Hguard" in
  let Happ := fresh "Happ" in
  let Hkey := fresh "Hkey" in
  destruct (algolia_credentials s) as [l|] eqn:Hl;
  [ destruct (merge_credentials l credentials s) as [[?|?] s1] eqn:Hmerge;
    [|match goal with
      | |- context [bool_decide ?P || bool_decide ?Q] =>
          destruct (bool_decide P || bool_decide Q) eqn:Hguard
      end;
      [|match goal with
        | |- context [getitem ?d "app_id"] =>
            destruct (getitem d "app_id") as [?|?] eqn:Happ;
            [|destruct (getitem d "api_key") as [?|?] eqn:Hkey;
              [|match goal with
                | |- context [create algolia ?a ?k] =>
                    destruct (create algolia a k) as [?|?];
                    [|destruct (init_index algolia index_name) as [[]|]]
                end]]
        end]]
  | ];
  intros [= <- <-]; simpl.

Lemma merge_credentials_calls config_creds cli_creds s r s' :
  merge_credentials config_creds cli_creds s = (r, s') → calls s' = calls s.
Proof. intros H. by apply merge_credentials_frame in H as (_ & _ & _ & _ & _ & ?). Qed.

Lemma get_index_calls algolia index_name credentials s r s' :
  get_index algolia index_name credentials s = (r, s') →
  ∃ tr, calls s' = (calls s ++ tr)%list ∧ Forall (λ e, is_setup e = true) tr ∧
        (∀ index, r = inr index → index = index_name).
Proof.
  get_index_paths algolia index_name credentials s;
    try (apply merge_credentials_calls in Hmerge; rewrite Hmerge);
    first [ exists []; rewrite app_nil_r; split; [done|]
          | eexists [_; _]; rewrite <- app_assoc; split; [done|]
          | eexists [_]; split; [done|] ];
    (split; [by repeat constructor|]); try done; by intros ? [= <-].
Qed.

Lemma next_pages_run algolia index pages all_object_ids s r s' :
  next_pages algolia index pages all_object_ids s = (r, s') →
  heap s' = heap s ∧ algolia_credentials s' = algolia_credentials s ∧
  ∃ fetched,
    calls s' = (calls s ++ (search_page index <$> fetched))%list ∧
    fetched `prefix_of` pages ∧
    (∀ k i, fetched !! k = Some i → reports_zero_hits algolia index i →
            length fetched = S k).
Proof.
  revert all_object_ids s.
  induction pages as [|i rest IH]; intros acc s.
  - intros [= <- <-]. repeat split. exists []. simpl. rewrite app_nil_r.
    repeat split; [done|]. intros k i Hk. by rewrite lookup_nil in Hk.
  - cbn [next_pages]. unfold call, emit, lift. unfold mbind, M_bind, mret, M_ret.
    assert (Hone : ∀ s0 : state,
      heap s0 = heap s → algolia_credentials s0 = algolia_credentials s →
      calls s0 = (calls s ++ [search_page index i])%list →
      heap s0 = heap s ∧ algolia_credentials s0 = algolia_credentials s ∧
      ∃ fetched,
        calls s0 = (calls s ++ (search_page index <$> fetched))%list ∧
        fetched `prefix_of` i :: rest ∧
        (∀ k j, fetched !! k = Some j → reports_zero_hits algolia index j →
                length fetched = S k)).
    { intros s0 ? ? ?. repeat split; try done. exists [i]. split; [done|].
      split; [apply prefix_cons, prefix_nil|].
      intros [|k] j; [done|]. simpl. intros Hk. by rewrite lookup_nil in Hk. }
    destruct (search algolia index (Some i)) as [e|next_page] eqn:Hsearch.
    { intros [= <- <-]. by apply Hone. }
    destruct (getitem next_page "nbHits") as [e|nb_hits] eqn:Hnb.
    { intros [= <- <-]. by apply Hone. }
    destruct (le_zero nb_hits) as [e|stop] eqn:Hstop.
    { intros [= <- <-]. by apply Hone. }
    destruct stop.
    { intros [= <- <-]. by apply Hone. }
    destruct (getitem next_page "hits") as [e|hits] eqn:Hhits.
    { intros [= <- <-]. by apply Hone. }
    destruct (hit_object_ids hits) as [e|next_page_hits] eqn:Hids.
    { intros [= <- <-]. by apply Hone. }
    intros Hrest. apply IH in Hrest as (Hheap & Hcreds & fetched & Hcalls & Hpre & Hlast).
    simpl in *. repeat split; try done.
    exists (i :: fetched). split; [by rewrite Hcalls, <- app_assoc|].
    split; [by apply prefix_cons|].
    intros [|k] j; simpl.
    + intros [= <-] (page & n & Hpage & Hn & Hle). exfalso.
      rewrite Hsearch in Hpage. injection Hpage as <-.
      rewrite Hnb in Hn. injection Hn as ->.
      simpl in Hstop. injection Hstop as Hstop. lia.
    + intros Hk Hz. f_equal. by eapply Hlast.
Qed.

Lemma prefix_seqZ (fetched : list Z) m len :
  fetched `prefix_of` seqZ m len → fetched = seqZ m (Z.of_nat (length fetched)).
Proof.
  intros [post Hpost].
  assert (Hlen : (Z.of_nat (length fetched) ≤ Z.max len 0)%Z).
  { apply (f_equal length) in Hpost. rewrite length_seqZ, length_app in Hpost. lia. }
  destruct (decide (len ≤ 0)%Z) as [Hneg|Hpos].
  { rewrite seqZ_nil in Hpost by done. symmetry in Hpost.
    apply app_eq_nil in Hpost as [-> _]. done. }
  replace len with (Z.of_nat (length fetched) + (len - Z.of_nat (length fetched)))%Z
    in Hpost by lia.
  rewrite seqZ_app in Hpost by lia.
  apply app_inj_1 in Hpost as [? _]; [done|].
  rewrite length_seqZ. lia.
Qed.

Lemma list_remote_keys_run algolia index s r s' :
  list_remote_keys algolia index s = (r, s') →
  heap s' = heap s ∧ algolia_credentials s' = algolia_credentials s ∧
  ∃ k : nat,
    calls s' =
      (calls s ++ Search index None :: (search_page index <$> seqZ 1 (Z.of_nat k)))%list ∧
    (∀ i, (1 ≤ i < Z.of_nat k)%Z → ¬ reports_zero_hits algolia index i).
Proof.
  unfold list_remote_keys, call, emit, lift. unfold mbind, M_bind, mret, M_ret.
  assert (Hnone : ∀ s0 : state,
    heap s0 = heap s → algolia_credentials s0 = algolia_credentials s →
    calls s0 = (calls s ++ [Search index None])%list →
    heap s0 = heap s ∧ algolia_credentials s0 = algolia_credentials s ∧
    ∃ k : nat,
      calls s0 =
        (calls s ++ Search index None :: (search_page index <$> seqZ 1 (Z.of_nat k)))%list ∧
      (∀ i, (1 ≤ i < Z.of_nat k)%Z → ¬ reports_zero_hits algolia index i)).
  { intros s0 ? ? ?. repeat split; try done. exists 0%nat. split; [done|]. lia. }
  destruct (search algolia index None) as [e|first_page] eqn:Hsearch.
  { intros [= <- <-]. by apply Hnone. }
  destruct (hit_object_ids first_page) as [e|first_page_hits] eqn:Hids.
  { intros [= <- <-]. by apply Hnone. }
  destruct (getitem first_page "nbPages") as [e|page_count] eqn:Hcount.
  { intros [= <- <-]. by apply Hnone. }
  destruct (range_from_1 page_count) as [e|pages] eqn:Hpages.
  { intros [= <- <-]. by apply Hnone. }
  destruct (next_pages _ _ _ _ _) as [[e|all_object_ids] s1] eqn:Hnext;
    intros [= <- <-];
    apply next_pages_run in Hnext as (Hheap & Hcreds & fetched & Hcalls & Hpre & Hlast);
    simpl in *; (repeat split; try done);
    exists (length fetched);
    destruct page_count as [[| n |]| |]; try done; injection Hpages as <-;
    apply prefix_seqZ in Hpre; rewrite <- Hpre;
    (split; [by rewrite Hcalls, <- app_assoc|]);
    intros i Hi Hz;
    (assert (Hk : fetched !! Z.to_nat (i - 1) = Some i)
      by (rewrite Hpre; apply lookup_seqZ; lia));
    specialize (Hlast _ _ Hk Hz); lia.
Qed.

Lemma publish_run algolia pad target_url credentials s r s' :
  publish algolia pad target_url credentials s = (r, s') →
  let index := netloc target_url in
  ∃ setup index_result connected,
    get_index algolia index credentials s = (index_result, connected) ∧
    calls connected = (calls s ++ setup)%list ∧
    Forall (λ e, is_setup e = true) setup ∧
    ((calls s' = (calls s ++ setup)%list ∧ is_ok r = false) ∨
     ∃ local local_keys (k : nat),
       list_local pad = inr local ∧
       local_object_ids local ∅ = inr local_keys ∧
       let found :=
         Yield ("Found " ++ pretty (length local) ++ " local records to index.") ::
         Search index None :: (search_page index <$> seqZ 1 (Z.of_nat k)) in
       (∀ i, (1 ≤ i < Z.of_nat k)%Z → ¬ reports_zero_hits algolia index i) ∧
       ((calls s' = (calls s ++ setup ++ found)%list ∧ is_ok r = false) ∨
        ∃ remote_keys s1 s2,
          list_remote_keys algolia index s1 = (inr remote_keys, s2) ∧
          calls s' =
            (calls s ++ setup ++ found ++
             Yield ("Found " ++ pretty (length remote_keys) ++
                    " existing remote records in the index.") ::
             Yield "Computing diff for index update..." ::
             diff_calls algolia index (keys_to_delete remote_keys local_keys) local)%list ∧
          r = diff_result algolia index (keys_to_delete remote_keys local_keys) local)).
Proof.
  intros H index. unfold publish in H. fold index in H.
  apply bind_run in H as [(e & H & ->)|(index' & s1 & Hget & H)].
  { pose proof H as Hget.
    apply get_index_calls in H as (setup & Hcalls & Hsetup & _).
    exists setup, (inl e), s'. repeat split; try done. by left. }
  pose proof Hget as Hget'.
  apply get_index_calls in Hget as (setup & Hcalls1 & Hsetup & Hindex).
  specialize (Hindex _ eq_refl) as ->. fold index in H.
  exists setup, (inr index), s1. split; [done|]. split; [done|]. split; [done|].
  apply bind_run in H as [(e & [_ ->]%lift_run & ->)|(local & s2 & [Hlocal ->]%lift_run & H)].
  { by left. }
  apply bind_run in H as [(e & [_ ->]%lift_run & ->)|(local_keys & s2 & [Hkeys ->]%lift_run & H)].
  { by left. }
  right. symmetry in Hlocal, Hkeys.
  apply bind_run in H as [(e & [=] & _)|([] & s2 & (_ & Hh2 & Hc2 & Hcalls2)%emit_run & H)].
  apply bind_run in H as [(e & H & ->)|(remote_keys & s3 & Hremote & H)].
  { apply list_remote_keys_run in H as (_ & _ & k & Hcalls3 & Hzero).
    exists local, local_keys, k. repeat split; try done. left. split; [|done].
    rewrite Hcalls3, Hcalls2, Hcalls1, <- !app_assoc. done. }
  pose proof Hremote as Hrun.
  apply list_remote_keys_run in Hrun as (_ & _ & k & Hcalls3 & Hzero).
  exists local, local_keys, k. repeat split; try done. right.
  exists remote_keys, s2, s3. split; [done|].
  apply bind_run in H as [(e & [=] & _)|([] & s4 & (_ & _ & _ & Hcalls4)%emit_run & H)].
  apply bind_run in H as [(e & [=] & _)|([] & s5 & (_ & _ & _ & Hcalls5)%emit_run & H)].
  assert (Hpre : calls s5 =
    (calls s ++ setup ++
      (Yield ("Found " ++ pretty (length local) ++ " local records to index.") ::
       Search index None :: (search_page index <$> seqZ 1 (Z.of_nat k))) ++
      [Yield ("Found " ++ pretty (length remote_keys) ++
              " existing remote records in the index.");
       Yield "Computing diff for index update..."])%list).
  { rewrite Hcalls5, Hcalls4, Hcalls3, Hcalls2, Hcalls1. simpl.
    repeat (rewrite <- app_assoc; simpl). done. }
  clear Hcalls1 Hcalls2 Hcalls3 Hcalls4 Hcalls5.
  unfold diff_calls, diff_result.
  apply bind_run in H as [(e & (Hdel & _ & _ & Hcalls6)%call_run & ->)
                         |(res_delete & s6 & (Hdel & _ & _ & Hcalls6)%call_run & H)];
    rewrite <- Hdel; simpl.
  { split; [|done]. rewrite Hcalls6, Hpre. repeat (rewrite <- app_assoc; simpl). done. }
  apply bind_run in H as [(e & [=] & _)|([] & s7 & (_ & _ & _ & Hcalls7)%emit_run & H)].
  apply bind_run in H as [(e & (Hadd & _ & _ & Hcalls8)%call_run & ->)
                         |(res_add & s8 & (Hadd & _ & _ & Hcalls8)%call_run & H)];
    rewrite <- Hadd; simpl.
  { split; [|done]. rewrite Hcalls8, Hcalls7, Hcalls6, Hpre. repeat (rewrite <- app_assoc; simpl). done. }
  apply bind_run in H as [(e & [=] & _)|([] & s9 & (_ & _ & _ & Hcalls9)%emit_run & H)].
  apply bind_run in H as [(e & [=] & _)|([] & s10 & (_ & _ & _ & Hcalls10)%emit_run & H)].
  apply emit_run in H as (-> & _ & _ & Hcalls11).
  split; [|done].
  rewrite Hcalls11, Hcalls10, Hcalls9, Hcalls8, Hcalls7, Hcalls6, Hpre.
  repeat (rewrite <- app_assoc; simpl). done.
Qed.

Lemma writes_app tr1 tr2 : writes (tr1 ++ tr2) = (writes tr1 ++ writes tr2)%list.
Proof. apply List.filter_app. Qed.

Lemma writes_setup tr : Forall (λ e, is_setup e = true) tr → writes tr = [].
Proof.
  induction 1 as [|e tr He _ IH]; [done|].
  unfold writes in *. simpl. rewrite IH. by destruct e.
Qed.

Lemma writes_search_pages index pages : writes (search_page index <$> pages) = [].
Proof. by induction pages. Qed.

Lemma writes_diff_calls algolia index keys local :
  writes (diff_calls algolia index keys local) =
    match delete_objects algolia index keys with
    | inl _ => [DeleteObjects index keys]
    | inr _ => [DeleteObjects index keys; SaveObjects index local]
    end.
Proof.
  unfold diff_calls, writes. simpl.
  destruct (delete_objects algolia index keys); [done|]. simpl.
  by destruct (save_objects algolia index local).
Qed.

Lemma writes_yield message tr : writes (Yield message :: tr) = writes tr.
Proof. done. Qed.

Lemma writes_search index page tr : writes (Search index page :: tr) = writes tr.
Proof. done. Qed.

Lemma local_object_ids_ok local acc :
  Forall (λ record : document, is_Some (record !! "objectID")) local →
  is_ok (local_object_ids local acc) = true.
Proof.
  intros Hall. revert acc.
  induction Hall as [|record local [object_id Hid] _ IH]; intros acc;
    cbn [local_object_ids]; [done|].
  rewrite Hid. apply IH.
Qed.

Lemma list_local_object_ids pad local :
  list_local pad = inr local →
  Forall (λ record : document, is_Some (record !! "objectID")) local.
Proof.
  unfold list_local. rewrite get_all_records_traverse.
  generalize (descendants (root pad)). intros nodes. revert local.
  induction nodes as [|n nodes IH]; cbn [traverse].
  - intros local [= <-]. constructor.
  - intros local. destruct (child_data pad n) as [|record] eqn:Hrecord; [done|].
    cbn. destruct (traverse (child_data pad) nodes) as [|records]; [done|].
    cbn. intros [= <-]. constructor; [|by apply IH].
    apply child_data_system_fields in Hrecord as [-> _]. by eexists.
Qed.

(** Every run of [publish]: it raises before the diff, without a write
    request, exactly for want of the index, the local records or the remote
    keys; otherwise its calls end with those of the diff. *)
Lemma publish_cases algolia pad target_url credentials s r s' :
  publish algolia pad target_url credentials s = (r, s') →
  let index := netloc target_url in
  ∃ before, writes before = [] ∧
    ((calls s' = (calls s ++ before)%list ∧ is_ok r = false ∧
      fails_before_diff algolia pad index credentials s) ∨
     ∃ local local_keys remote_keys s1 s2,
       list_local pad = inr local ∧
       local_object_ids local ∅ = inr local_keys ∧
       list_remote_keys algolia index s1 = (inr remote_keys, s2) ∧
       calls s' =
         (calls s ++ before ++
          diff_calls algolia index (keys_to_delete remote_keys local_keys) local)%list ∧
       r = diff_result algolia index (keys_to_delete remote_keys local_keys) local).
Proof.
  intros H index. unfold publish in H. fold index in H.
  apply bind_run in H as [(e & H & ->)|(index' & s1 & Hget & H)].
  { pose proof H as Hget.
    apply get_index_calls in H as (setup & Hcalls & Hsetup & _).
    exists setup. split; [by apply writes_setup|]. left.
    split; [done|]. split; [done|]. left. by rewrite Hget. }
  pose proof Hget as Hget'.
  apply get_index_calls in Hget as (setup & Hcalls1 & Hsetup & Hindex).
  specialize (Hindex _ eq_refl) as ->. fold index in H.
  apply bind_run in H as [(e & [Hlocal ->]%lift_run & ->)|(local & s2 & [Hlocal ->]%lift_run & H)].
  { exists setup. split; [by apply writes_setup|]. left.
    split; [done|]. split; [done|]. right; left. by rewrite <- Hlocal. }
  symmetry in Hlocal.
  apply bind_run in H as [(e & [Hkeys ->]%lift_run & ->)|(local_keys & s2 & [Hkeys ->]%lift_run & H)].
  { pose proof (local_object_ids_ok local ∅ (list_local_object_ids _ _ Hlocal)) as Hok.
    by rewrite <- Hkeys in Hok. }
  symmetry in Hkeys.
  apply bind_run in H as [(e & [=] & _)|([] & s2 & (_ & Hh2 & Hc2 & Hcalls2)%emit_run & H)].
  apply bind_run in H as [(e & H & ->)|(remote_keys & s3 & Hremote & H)].
  { pose proof H as Hremote.
    apply list_remote_keys_run in H as (_ & _ & k & Hcalls3 & Hzero).
    eexists (setup ++ Yield _ :: Search index None :: (search_page index <$> seqZ 1 (Z.of_nat k)))%list.
    split.
    { by rewrite writes_app, (writes_setup _ Hsetup), writes_yield,
        writes_search, writes_search_pages. }
    left. split.
    { rewrite Hcalls3, Hcalls2, Hcalls1, <- !app_assoc. done. }
    split; [done|]. right; right. exists s2. by rewrite Hremote. }
  pose proof Hremote as Hrun.
  apply list_remote_keys_run in Hrun as (_ & _ & k & Hcalls3 & Hzero).
  apply bind_run in H as [(e & [=] & _)|([] & s4 & (_ & _ & _ & Hcalls4)%emit_run & H)].
  apply bind_run in H as [(e & [=] & _)|([] & s5 & (_ & _ & _ & Hcalls5)%emit_run & H)].
  eexists (setup ++
      (Yield ("Found " ++ pretty (length local) ++ " local records to index.") ::
       Search index None :: (search_page index <$> seqZ 1 (Z.of_nat k))) ++
      [Yield ("Found " ++ pretty (length remote_keys) ++
              " existing remote records in the index.");
       Yield "Computing diff for index update..."])%list.
  split.
  { by rewrite !writes_app, (writes_setup _ Hsetup), writes_yield,
      writes_search, writes_search_pages. }
  right. exists local, local_keys, remote_keys, s2, s3.
  split; [done|]. split; [done|]. split; [done|].
  assert (Hpre : calls s5 =
    (calls s ++ setup ++
      (Yield ("Found " ++ pretty (length local) ++ " local records to index.") ::
       Search index None :: (search_page index <$> seqZ 1 (Z.of_nat k))) ++
      [Yield ("Found " ++ pretty (length remote_keys) ++
              " existing remote records in the index.");
       Yield "Computing diff for index update..."])%list).
  { rewrite Hcalls5, Hcalls4, Hcalls3, Hcalls2, Hcalls1. simpl.
    repeat (rewrite <- app_assoc; simpl). done. }
  clear Hcalls1 Hcalls2 Hcalls3 Hcalls4 Hcalls5.
  unfold diff_calls, diff_result.
  apply bind_run in H as [(e & (Hdel & _ & _ & Hcalls6)%call_run & ->)
                         |(res_delete & s6 & (Hdel & _ & _ & Hcalls6)%call_run & H)];
    rewrite <- Hdel; simpl.
  { split; [|done]. rewrite Hcalls6, Hpre. repeat (rewrite <- app_assoc; simpl). done. }
  apply bind_run in H as [(e & [=] & _)|([] & s7 & (_ & _ & _ & Hcalls7)%emit_run & H)].
  apply bind_run in H as [(e & (Hadd & _ & _ & Hcalls8)%call_run & ->)
                         |(res_add & s8 & (Hadd & _ & _ & Hcalls8)%call_run & H)];
    rewrite <- Hadd; simpl.
  { split; [|done]. rewrite Hcalls8, Hcalls7, Hcalls6, Hpre. repeat (rewrite <- app_assoc; simpl). done. }
  apply bind_run in H as [(e & [=] & _)|([] & s9 & (_ & _ & _ & Hcalls9)%emit_run & H)].
  apply bind_run in H as [(e & [=] & _)|([] & s10 & (_ & _ & _ & Hcalls10)%emit_run & H)].
  apply emit_run in H as (-> & _ & _ & Hcalls11).
  split; [|done].
  rewrite Hcalls11, Hcalls10, Hcalls9, Hcalls8, Hcalls7, Hcalls6, Hpre.
  repeat (rewrite <- app_assoc; simpl). done.
Qed.

(** Claim C7.  Every run either raises before the diff, for want of the
    index, the local records or the remote keys, and then issues no write
    request; or it issues the batched delete request for the keys to
    delete as its first write request.  When that request raises, the run
    stops there and the save request is never issued.  When it returns,
    the run reports its answer and only then issues the batched save
    request for the whole list of local records; no other write request
    follows, and the run completes exactly when the save request returns. *)
Theorem delete_precedes_upsert algolia pad target_url credentials s r s' :
  publish algolia pad target_url credentials s = (r, s') →
  let index := netloc target_url in
  ∃ tr, calls s' = (calls s ++ tr)%list ∧
    ((writes tr = [] ∧ is_ok r = false ∧
      fails_before_diff algolia pad index credentials s) ∨
     ∃ local local_keys remote_keys s1 s2 before,
       list_local pad = inr local ∧
       local_object_ids local ∅ = inr local_keys ∧
       list_remote_keys algolia index s1 = (inr remote_keys, s2) ∧
       writes before = [] ∧
       let to_delete := keys_to_delete remote_keys local_keys in
       let to_upsert := local in
       match delete_objects algolia index to_delete with
       | inl e =>
           tr = (before ++ [DeleteObjects index to_delete])%list ∧ r = inl e
       | inr res_delete =>
           ∃ after,
             tr = (before ++
                   DeleteObjects index to_delete ::
                   Yield ("Deleted " ++ pretty (length res_delete) ++
                          " stale records from remote index.") ::
                   SaveObjects index to_upsert :: after)%list ∧
             writes after = [] ∧
             (r = inr () ↔ is_ok (save_objects algolia index to_upsert) = true)
       end).
Proof.
  intros H index. apply publish_cases in H as (before & Hbefore & H). fold index in H.
  destruct H as [(Hcalls & Hr & Hfails)
                |(local & local_keys & remote_keys & s1 & s2 &
                  Hlocal & Hkeys & Hremote & Hcalls & Hr)].
  { exists before. split; [done|]. by left. }
  eexists. split; [exact Hcalls|]. right.
  exists local, local_keys, remote_keys, s1, s2, before.
  split; [done|]. split; [done|]. split; [done|]. split; [done|]. cbn zeta.
  subst r. unfold diff_calls, diff_result.
  destruct (delete_objects algolia index _) as [e|res_delete]; [done|].
  destruct (save_objects algolia index local) as [e|res_add]; cbn.
  - exists []. by split.
  - eexists [_; _; _]. by split.
Qed.


Lemma local_object_ids_spec local acc local_keys :
  local_object_ids local acc = inr local_keys →
  ∀ a, a ∈ local_keys ↔
    a ∈ acc ∨ ∃ record object_id,
      record ∈ local ∧ record !! "objectID" = Some object_id ∧ a = AStr object_id.
Proof.
  revert acc. induction local as [|record rest IH]; simpl; intros acc.
  - intros [= <-] a. split; [by left|].
    by intros [?|(? & ? & ?%elem_of_nil & _)].
  - destruct (record !! "objectID") as [object_id|] eqn:Hid; [|done].
    intros H a. rewrite (IH _ H a), elem_of_union, elem_of_singleton. split.
    + intros [[?| ->]|(record' & id' & ? & ? & ?)]; [by left|..].
      * right. exists record, object_id. split; [left|done].
      * right. exists record', id'. split; [by right|done].
    + intros [?|(record' & id' & [-> | ?]%elem_of_cons & Hid' & ->)].
      * by left; left.
      * left; right. congruence.
      * right. by exists record', id'.
Qed.

Lemma keys_to_delete_spec remote_keys local_keys :
  NoDup (keys_to_delete remote_keys local_keys) ∧
  ∀ a, a ∈ keys_to_delete remote_keys local_keys ↔
       a ∈ remote_keys ∧ a ∉ local_keys.
Proof.
  unfold keys_to_delete. split; [apply NoDup_elements|].
  intros a. rewrite elem_of_elements, elem_of_difference, elem_of_list_to_set.
  done.
Qed.

(** Claim C3.  A run that gets its local records and the remote keys asks
    to delete the remote keys that are the [objectID] of no local record,
    each once, and, once the delete request has returned, saves the whole
    list of local records; with no local record every remote key is
    deleted, with no remote key nothing is.  The only runs without these
    requests are those that raise for want of the index, the local records
    or the remote keys. *)
Theorem publish_diff algolia pad target_url credentials s r s' :
  publish algolia pad target_url credentials s = (r, s') →
  let index := netloc target_url in
  ∃ tr, calls s' = (calls s ++ tr)%list ∧
    ((writes tr = [] ∧ is_ok r = false ∧
      fails_before_diff algolia pad index credentials s) ∨
     ∃ local remote_keys s1 s2 to_delete,
       list_local pad = inr local ∧
       list_remote_keys algolia index s1 = (inr remote_keys, s2) ∧
       NoDup to_delete ∧
       (∀ a, a ∈ to_delete ↔
          a ∈ remote_keys ∧
          ¬ ∃ record object_id,
              record ∈ local ∧ record !! "objectID" = Some object_id ∧
              a = AStr object_id) ∧
       writes tr =
         DeleteObjects index to_delete ::
         (if is_ok (delete_objects algolia index to_delete)
          then [SaveObjects index local] else []) ∧
       (local = [] → ∀ a, a ∈ to_delete ↔ a ∈ remote_keys) ∧
       (remote_keys = [] → to_delete = [])).
Proof.
  intros H index. apply publish_cases in H as (before & Hbefore & H). fold index in H.
  destruct H as [(Hcalls & Hr & Hfails)
                |(local & local_keys & remote_keys & s1 & s2 &
                  Hlocal & Hkeys & Hremote & Hcalls & Hr)].
  { exists before. split; [done|]. by left. }
  eexists. split; [exact Hcalls|]. right.
  destruct (keys_to_delete_spec remote_keys local_keys) as [Hnodup Hspec].
  pose proof (local_object_ids_spec _ _ _ Hkeys) as Hlk.
  assert (Hmem : ∀ a, a ∈ keys_to_delete remote_keys local_keys ↔
    a ∈ remote_keys ∧
    ¬ ∃ record object_id,
        record ∈ local ∧ record !! "objectID" = Some object_id ∧ a = AStr object_id).
  { intros a. rewrite Hspec, Hlk. split; intros [? Hnot]; (split; [done|]).
    - intros ?. apply Hnot. by right.
    - by intros [?%elem_of_empty|?]. }
  exists local, remote_keys, s1, s2, (keys_to_delete remote_keys local_keys).
  split; [done|]. split; [done|]. split; [done|]. split; [done|].
  split; [|split].
  - rewrite writes_app, Hbefore, writes_diff_calls. cbn.
    by destruct (delete_objects algolia index _).
  - intros -> a. rewrite Hmem. split; [by intros [? _]|].
    intros ?. split; [done|]. by intros (? & ? & ?%elem_of_nil & _).
  - intros ->. apply elem_of_nil_inv. intros a. rewrite Hmem.
    by intros [?%elem_of_nil _].
Qed.











(** Claim C6.  A page of index 1 or more that reports no hit ends the loop
    at once, with the set of object ids as it was, and no page after it is
    requested by the enumeration. *)
Theorem zero_hit_page_stops algolia index i :
  (1 ≤ i)%Z →
  reports_zero_hits algolia index i →
  (∀ rest all_object_ids s,
     next_pages algolia index (i :: rest) all_object_ids s =
       (inr all_object_ids,
        {| heap := heap s;
           algolia_credentials := algolia_credentials s;
           calls := (calls s ++ [Search index (Some i)])%list |})) ∧
  (∀ s r s',
     list_remote_keys algolia index s = (r, s') →
     ∃ tr, calls s' = (calls s ++ tr)%list ∧
           ∀ j, (i < j)%Z → Search index (Some j) ∉ tr).
Proof.
  intros Hi Hzero. split.
  - destruct Hzero as (next_page & n & Hsearch & Hn & Hle).
    intros rest acc s. cbn [next_pages].
    unfold call, emit, lift. unfold mbind, M_bind, mret, M_ret.
    rewrite Hsearch, Hn. simpl.
    by destruct (Z.leb_spec n 0); [|lia].
  - intros s r s' (_ & _ & k & Hcalls & Hgo)%list_remote_keys_run.
    eexists. split; [done|].
    intros j Hj [[=]|Hin]%elem_of_cons.
    apply list_elem_of_fmap in Hin as (j' & [= <-] & Hin).
    apply elem_of_seqZ in Hin. apply (Hgo i); [lia|done].
Qed.

(** Claim C1 fails on the code.  When the first page announces two pages or
    more and the second one reports hits, the enumeration raises a
    [TypeError]: the list of hits is passed where the page is expected. *)
Theorem list_remote_keys_second_page
    algolia index s first_page first_page_hits n next_page m hits :
  search algolia index None = inr first_page →
  hit_object_ids first_page = inr first_page_hits →
  getitem first_page "nbPages" = inr (VInt n) →
  (2 ≤ n)%Z →
  search algolia index (Some 1%Z) = inr next_page →
  getitem next_page "nbHits" = inr (VInt m) →
  (0 < m)%Z →
  getitem next_page "hits" = inr (VList hits) →
  list_remote_keys algolia index s =
    (inl TypeError,
     {| heap := heap s;
        algolia_credentials := algolia_credentials s;
        calls := (calls s ++ [Search index None; Search index (Some 1%Z)])%list |}).
Proof.
  intros Hfirst Hids Hcount Hn Hnext Hm Hpos Hhits.
  unfold list_remote_keys, call, emit, lift. unfold mbind, M_bind, mret, M_ret.
  rewrite Hfirst, Hids, Hcount. simpl.
  rewrite seqZ_cons by lia. cbn [next_pages].
  unfold call, emit, lift. unfold mbind, M_bind, mret, M_ret.
  rewrite Hnext, Hm. simpl.
  destruct (Z.leb_spec m 0); [lia|].
  rewrite Hhits. simpl. by rewrite <- app_assoc.
Qed.

Lemma on_setup_env_run config s :
  on_setup_env config s =
    (inr (),
     {| heap := <[fresh (dom (heap s)) := config_credentials config]> (heap s);
        algolia_credentials := Some (fresh (dom (heap s)));
        calls := calls s |}).
Proof.
  unfold on_setup_env, new_dict, set_algolia_credentials, dict_setitem.
  unfold mbind, M_bind. simpl. by rewrite !alter_insert_eq.
Qed.

Lemma get_index_creates algolia index_name credentials s l d r s' :
  algolia_credentials s = Some l →
  heap s !! l = Some d →
  "app_id" ∈ dom d → "api_key" ∈ dom d →
  get_index algolia index_name credentials s = (r, s') →
  (∃ e s1, merge_credentials l credentials s = (inl e, s1) ∧
           r = inl e ∧ calls s' = calls s) ∨
  (∃ s1 d1 app_id api_key tr,
     merge_credentials l credentials s = (inr l, s1) ∧
     heap s1 !! l = Some d1 ∧
     d1 !! "app_id" = Some app_id ∧ d1 !! "api_key" = Some api_key ∧
     calls s' = (calls s ++ Create app_id api_key :: tr)%list).
Proof.
  intros Hcreds Hd Happ_id Hapi_key.
  get_index_paths algolia index_name credentials s; try done.
  all: injection Hcreds as ->.
  all: pose proof Hmerge as Hframe.
  all: apply merge_credentials_frame in Hframe
         as (Hsame & _ & _ & Hdom & _ & Hcalls).
  1: by left; eauto.
  all: specialize (Hsame _ eq_refl) as ->.
  all: destruct (Hdom _ Hd) as (d1 & Hd1 & Hsub).
  all: rewrite Hd1 in *; simpl in *.
  1: { exfalso. apply orb_prop in Hguard as [Hg|Hg];
       apply bool_decide_eq_true in Hg; set_solver. }
  all: destruct (d1 !! "app_id") as [app_id|] eqn:Happ_id';
    [|exfalso; apply not_elem_of_dom in Happ_id'; set_solver].
  all: try done.
  all: destruct (d1 !! "api_key") as [api_key|] eqn:Hapi_key';
    [|exfalso; apply not_elem_of_dom in Hapi_key'; set_solver].
  all: try done.
  all: injection Happ as <-; injection Hkey as <-; right.
  all: eexists s1, d1, _, _, _; (repeat split; try done).
  all: rewrite Hcalls, <- ?app_assoc; simpl; done.
Qed.

Lemma config_credentials_dom config :
  "app_id" ∈ dom (config_credentials config) ∧
  "api_key" ∈ dom (config_credentials config).
Proof. unfold config_credentials. rewrite !dom_insert_L. set_solver. Qed.

(** Claim C4 fails on the code.  With no [api_key] in the configuration and
    no override, the run does not stop at the credentials check: its first
    call creates the client with [None] as the key. *)
Theorem deploy_creates_client_without_api_key algolia pad config target_url :
  config !! "api_key" = None →
  ∃ tr, calls (deploy algolia pad config target_url VNone initial).2 =
        Create (config_get config "app_id") VNone :: tr.
Proof.
  intros Hnone. unfold deploy, mbind, M_bind. rewrite on_setup_env_run.
  set (l := fresh (dom (heap initial))).
  set (s0 := {| heap := _; algolia_credentials := _; calls := _ |}).
  destruct (publish algolia pad target_url VNone s0) as [r s'] eqn:Hpublish.
  apply publish_run in Hpublish
    as (setup & rg & sg & Hget & Hsetup_calls & _ & Hcalls).
  destruct (config_credentials_dom config) as [Happ_id Hapi_key].
  eapply (get_index_creates _ _ _ s0 l) in Hget
    as [(e & s1 & [=] & _)|(s1 & d1 & app_id & api_key & tr & Hmerge & Hd1 & Ha & Hk & Hg)];
    [| done | apply lookup_insert_eq | done | done ].
  injection Hmerge as <-. simpl in Hd1. rewrite lookup_insert_eq in Hd1.
  injection Hd1 as <-. unfold config_credentials in Ha, Hk.
  rewrite lookup_insert_ne, lookup_insert_eq in Ha by done.
  rewrite lookup_insert_eq in Hk. unfold config_get at 1 in Hk. rewrite Hnone in Hk.
  injection Ha as <-. injection Hk as <-.
  rewrite Hg in Hsetup_calls. apply app_inv_head in Hsetup_calls as <-.
  simpl.
  destruct Hcalls as [[-> _]|(local & local_keys & k & _ & _ & _ &
                               [[-> _]|(remote_keys & _ & _ & _ & -> & _)])];
    simpl; eauto.
Qed.

Lemma get_index_heap algolia index_name credentials s l r s' :
  algolia_credentials s = Some l →
  get_index algolia index_name credentials s = (r, s') →
  ∃ merged s1,
    merge_credentials l credentials s = (merged, s1) ∧
    heap s' = heap s1 ∧ algolia_credentials s' = algolia_credentials s1.
Proof.
  intros Hcreds.
  get_index_paths algolia index_name credentials s; try done;
    injection Hcreds as ->; eauto.
Qed.

Lemma prefer_supplied given (config : option value) :
  (if truthy (cli_value given) then Some (cli_value given) else config) =
  prefer (supplied given) config.
Proof.
  unfold prefer, supplied.
  destruct given as [[|c s]|]; [| |done].
  - destruct (decide ("" = "")); done.
  - destruct (decide (String c s = "")); done.
Qed.

(** The merge with a dict that holds the three options, whatever their
    values: an option replaces the configured value when it is truthy. *)
Lemma merge_credentials_dict config_creds d s c username password key :
  heap s !! config_creds = Some d →
  c !! "username" = Some username →
  c !! "password" = Some password →
  c !! "key" = Some key →
  ∃ s' d',
    merge_credentials config_creds (VDict c) s = (inr config_creds, s') ∧
    dom (heap s') = dom (heap s) ∧
    algolia_credentials s' = algolia_credentials s ∧
    calls s' = calls s ∧
    heap s' !! config_creds = Some d' ∧
    d' !! "app_id" = (if truthy username then Some username else d !! "app_id") ∧
    d' !! "api_key" =
      (if truthy key then Some key
       else if truthy password then Some password else d !! "api_key") ∧
    ∀ k, k ≠ "app_id" → k ≠ "api_key" → d' !! k = d !! k.
Proof.
  intros Hd Husername Hpassword Hkey.
  unfold merge_credentials, mbind, M_bind, lift, dict_setitem, mret, M_ret.
  assert (truthy (VDict c) = true) as ->.
  { cbn [truthy]. apply negb_true_iff, bool_decide_eq_false. intros ->.
    by rewrite lookup_empty in Husername. }
  cbn [getitem]. rewrite Husername, Hpassword, Hkey. cbn [ok].
  destruct (truthy username), (truthy password), (truthy key);
    eexists _, _; (split; [reflexivity|]); cbn [heap algolia_credentials calls];
    (split; [by rewrite ?dom_alter_L|]);
    (split; [reflexivity|]); (split; [reflexivity|]);
    (split; [rewrite ?lookup_alter_eq, Hd; reflexivity|]);
    repeat (rewrite lookup_insert_eq || rewrite lookup_insert_ne by done);
    (split; [reflexivity|]); (split; [reflexivity|]);
    intros k ? ?; by rewrite ?lookup_insert_ne.
Qed.

Lemma merge_credentials_override config_creds d s cli_creds username password key :
  heap s !! config_creds = Some d →
  cli_override cli_creds username password key →
  ∃ s' d',
    merge_credentials config_creds cli_creds s = (inr config_creds, s') ∧
    dom (heap s') = dom (heap s) ∧
    algolia_credentials s' = algolia_credentials s ∧
    calls s' = calls s ∧
    heap s' !! config_creds = Some d' ∧
    d' !! "app_id" = prefer (supplied username) (d !! "app_id") ∧
    d' !! "api_key" =
      prefer (supplied key) (prefer (supplied password) (d !! "api_key")) ∧
    ∀ k, k ≠ "app_id" → k ≠ "api_key" → d' !! k = d !! k.
Proof.
  intros Hd Hcli.
  destruct Hcli as [| |c username password key Husername Hpassword Hkey].
  - exists s, d. by repeat split.
  - exists s, d. by repeat split.
  - destruct (merge_credentials_dict _ _ _ _ _ _ _ Hd Husername Hpassword Hkey)
      as (s' & d' & Hrun & Hdom & Hcreds & Hcalls & Hd' & Happ & Hapi & Hother).
    exists s', d'. rewrite Happ, Hapi, !prefer_supplied. by repeat split.
Qed.

(** Claim C9.  A command-line option replaces the configured value exactly
    when it is present and not empty: [username] replaces [app_id],
    [password] replaces [api_key], and [key] replaces [api_key] with
    precedence over [password]; every other entry is left as it was. *)
Theorem merge_credentials_precedence
    config_creds d s cli_creds username password key :
  heap s !! config_creds = Some d →
  cli_override cli_creds username password key →
  ∃ s' d',
    merge_credentials config_creds cli_creds s = (inr config_creds, s') ∧
    heap s' !! config_creds = Some d' ∧
    d' !! "app_id" =
      match username with
      | Some u => if decide (u = "") then d !! "app_id" else Some (VStr u)
      | None => d !! "app_id"
      end ∧
    d' !! "api_key" =
      match key with
      | Some k => if decide (k = "") then
                    match password with
                    | Some p => if decide (p = "") then d !! "api_key"
                                else Some (VStr p)
                    | None => d !! "api_key"
                    end
                  else Some (VStr k)
      | None => match password with
                | Some p => if decide (p = "") then d !! "api_key"
                            else Some (VStr p)
                | None => d !! "api_key"
                end
      end ∧
    (∀ k, k ≠ "app_id" → k ≠ "api_key" → d' !! k = d !! k).
Proof.
  intros Hd Hcli.
  destruct (merge_credentials_override _ _ _ _ _ _ _ Hd Hcli)
    as (s' & d' & Hrun & _ & _ & _ & Hd' & Happ & Hkey & Hother).
  exists s', d'. split; [exact Hrun|]. split; [exact Hd'|].
  split; [|split; [|exact Hother]].
  - rewrite Happ. unfold prefer, supplied.
    destruct username as [u|]; [|reflexivity].
    destruct (decide (u = "")); reflexivity.
  - rewrite Hkey. unfold prefer, supplied.
    destruct key as [k|], password as [p|];
      repeat match goal with
             | |- context [decide (?x = "")] => destruct (decide (x = ""))
             end; reflexivity.
Qed.

(** Claim C10.  The merge returns the very dict object it was given, updated
    in place, without creating another one; the environment still points at
    it after [get_index], so the override stays in the environment and a
    later merge without override returns it. *)
Theorem merge_credentials_in_place
    algolia index_name l d s cli_creds username password key :
  algolia_credentials s = Some l →
  heap s !! l = Some d →
  cli_override cli_creds username password key →
  ∃ s1 d1,
    merge_credentials l cli_creds s = (inr l, s1) ∧
    dom (heap s1) = dom (heap s) ∧
    algolia_credentials s1 = Some l ∧
    heap s1 !! l = Some d1 ∧
    d1 !! "app_id" = prefer (supplied username) (d !! "app_id") ∧
    d1 !! "api_key" =
      prefer (supplied key) (prefer (supplied password) (d !! "api_key")) ∧
    (∀ r s', get_index algolia index_name cli_creds s = (r, s') →
             algolia_credentials s' = Some l ∧ heap s' = heap s1) ∧
    merge_credentials l VNone s1 = (inr l, s1).
Proof.
  intros Hcreds Hd Hcli.
  destruct (merge_credentials_override _ _ _ _ _ _ _ Hd Hcli)
    as (s1 & d1 & Hrun & Hdom & Hcreds1 & _ & Hd1 & Happ & Hkey & _).
  exists s1, d1. rewrite Hcreds1.
  split; [exact Hrun|]. split; [exact Hdom|]. split; [exact Hcreds|].
  split; [exact Hd1|]. split; [exact Happ|]. split; [exact Hkey|].
  split; [|reflexivity].
  intros r s' Hget.
  destruct (get_index_heap _ _ _ _ _ _ _ Hcreds Hget)
    as (merged & s1' & Hrun' & Hheap & Hc).
  rewrite Hrun in Hrun'. injection Hrun' as <- <-.
  split; [congruence|done].
Qed.

Example configured_by_on_setup_env :
  on_setup_env configuration initial = (inr (), configured).
Proof. vm_compute. reflexivity. Qed.

Example list_local_hello : list_local hello_pad = inr [hello_document].
Proof. vm_compute. reflexivity. Qed.

Example stale_run_writes :
  stale_run.1 = inr () ∧
  writes (calls stale_run.2) =
    [DeleteObjects "site" [AStr "x2"]; SaveObjects "site" [hello_document]].
Proof. split; vm_compute; reflexivity. Qed.

Example partial_override_raises :
  (merge_credentials 1%positive (VDict {[ "key" := VStr "K2" ]}) configured).1
    = inl (KeyError "username").
Proof. vm_compute. reflexivity. Qed.

Lemma list_remote_keys_second_page_witness :
  list_remote_keys two_page_index "site" configured =
    (inl TypeError,
     {| heap := heap configured;
        algolia_credentials := algolia_credentials configured;
        calls := (calls configured ++
                  [Search "site" None; Search "site" (Some 1%Z)])%list |}).
Proof.
  apply (list_remote_keys_second_page two_page_index "site" configured
           (result_page [hit "a"] 2 2) (∅ ∪ {[AStr "a"]}) 2
           (result_page [hit "b"] 2 2) 2 [hit "b"]).
  - reflexivity.
  - vm_compute. reflexivity.
  - reflexivity.
  - lia.
  - reflexivity.
  - reflexivity.
  - lia.
  - reflexivity.
Defined.

Lemma publish_diff_witness :
  ∃ tr, calls stale_run.2 = (calls configured ++ tr)%list ∧
    ((writes tr = [] ∧ is_ok stale_run.1 = false ∧
      fails_before_diff stale_index hello_pad "site" VNone configured) ∨
     ∃ local remote_keys s1 s2 to_delete,
       list_local hello_pad = inr local ∧
       list_remote_keys stale_index "site" s1 = (inr remote_keys, s2) ∧
       NoDup to_delete ∧
       (∀ a, a ∈ to_delete ↔
          a ∈ remote_keys ∧
          ¬ ∃ record object_id,
              record ∈ local ∧ record !! "objectID" = Some object_id ∧
              a = AStr object_id) ∧
       writes tr =
         DeleteObjects "site" to_delete ::
         (if is_ok (delete_objects stale_index "site" to_delete)
          then [SaveObjects "site" local] else []) ∧
       (local = [] → ∀ a, a ∈ to_delete ↔ a ∈ remote_keys) ∧
       (remote_keys = [] → to_delete = [])).
Proof.
  apply (publish_diff stale_index hello_pad target VNone configured
           stale_run.1 stale_run.2).
  vm_compute. reflexivity.
Defined.

Lemma deploy_creates_client_without_api_key_witness :
  ∃ tr, calls (deploy one_page_index hello_pad {[ "app_id" := "A" ]}
                 target VNone initial).2 =
        Create (config_get {[ "app_id" := "A" ]} "app_id") VNone :: tr.
Proof.
  apply (deploy_creates_client_without_api_key one_page_index hello_pad
           {[ "app_id" := "A" ]} target).
  reflexivity.
Defined.


Lemma zero_hit_page_stops_witness :
  (∀ rest all_object_ids s,
     next_pages short_index "site" (1%Z :: rest) all_object_ids s =
       (inr all_object_ids,
        {| heap := heap s;
           algolia_credentials := algolia_credentials s;
           calls := (calls s ++ [Search "site" (Some 1%Z)])%list |})) ∧
  (∀ s r s',
     list_remote_keys short_index "site" s = (r, s') →
     ∃ tr, calls s' = (calls s ++ tr)%list ∧
           ∀ j, (1 < j)%Z → Search "site" (Some j) ∉ tr).
Proof.
  apply (zero_hit_page_stops short_index "site" 1).
  - lia.
  - exists (result_page [] 0 3), 0%Z.
    split; [reflexivity|]. split; [reflexivity|lia].
Defined.

Lemma delete_precedes_upsert_witness :
  ∃ tr, calls stale_run.2 = (calls configured ++ tr)%list ∧
    ((writes tr = [] ∧ is_ok stale_run.1 = false ∧
      fails_before_diff stale_index hello_pad "site" VNone configured) ∨
     ∃ local local_keys remote_keys s1 s2 before,
       list_local hello_pad = inr local ∧
       local_object_ids local ∅ = inr local_keys ∧
       list_remote_keys stale_index "site" s1 = (inr remote_keys, s2) ∧
       writes before = [] ∧
       let to_delete := keys_to_delete remote_keys local_keys in
       let to_upsert := local in
       match delete_objects stale_index "site" to_delete with
       | inl e =>
           tr = (before ++ [DeleteObjects "site" to_delete])%list ∧
           stale_run.1 = inl e
       | inr res_delete =>
           ∃ after,
             tr = (before ++
                   DeleteObjects "site" to_delete ::
                   Yield ("Deleted " ++ pretty (length res_delete) ++
                          " stale records from remote index.") ::
                   SaveObjects "site" to_upsert :: after)%list ∧
             writes after = [] ∧
             (stale_run.1 = inr () ↔
              is_ok (save_objects stale_index "site" to_upsert) = true)
       end).
Proof.
  apply (delete_precedes_upsert stale_index hello_pad target VNone configured
           stale_run.1 stale_run.2).
  vm_compute. reflexivity.
Defined.

Lemma merge_credentials_precedence_witness :
  ∃ s' d',
    merge_credentials 1%positive override configured = (inr 1%positive, s') ∧
    heap s' !! 1%positive = Some d' ∧
    d' !! "app_id" = Some (VStr "U") ∧
    d' !! "api_key" = Some (VStr "K2") ∧
    (∀ k, k ≠ "app_id" → k ≠ "api_key" →
          d' !! k = config_credentials configuration !! k).
Proof.
  apply (merge_credentials_precedence 1%positive
           (config_credentials configuration) configured override
           (Some "U") None (Some "K2")).
  - reflexivity.
  - apply given_credentials; vm_compute; reflexivity.
Defined.

Lemma merge_credentials_in_place_witness :
  ∃ s1 d1,
    merge_credentials 1%positive override configured = (inr 1%positive, s1) ∧
    dom (heap s1) = dom (heap configured) ∧
    algolia_credentials s1 = Some 1%positive ∧
    heap s1 !! 1%positive = Some d1 ∧
    d1 !! "app_id" = Some (VStr "U") ∧
    d1 !! "api_key" = Some (VStr "K2") ∧
    (∀ r s', get_index one_page_index "site" override configured = (r, s') →
             algolia_credentials s' = Some 1%positive ∧ heap s' = heap s1) ∧
    merge_credentials 1%positive VNone s1 = (inr 1%positive, s1).
Proof.
  apply (merge_credentials_in_place one_page_index "site" 1%positive
           (config_credentials configuration) configured override
           (Some "U") None (Some "K2")).
  - reflexivity.
  - reflexivity.
  - apply given_credentials; vm_compute; reflexivity.
Defined.

Lemma object_ids_spec hits acc ids :
  object_ids hits acc = inr ids →
  ∀ a, a ∈ ids ↔
       a ∈ acc ∨ ∃ hit, hit ∈ hits ∧ getitem hit "objectID" = inr (VAtom a).
Proof.
  revert acc. induction hits as [|hit rest IH]; cbn [object_ids]; intros acc.
  - intros [= <-] a. split; [by left|].
    by intros [?|(? & ?%elem_of_nil & _)].
  - destruct (getitem hit "objectID") as [|object_id] eqn:Hid; [done|].
    cbn. destruct object_id as [a0| |]; cbn; [|done..].
    intros H a. rewrite (IH _ H a), elem_of_union, elem_of_singleton. split.
    + intros [[?| ->]|(hit' & ? & ?)]; [by left|..].
      * right. exists hit. split; [left|done].
      * right. exists hit'. split; [by right|done].
    + intros [?|(hit' & [-> | ?]%elem_of_cons & Hid')].
      * by left; left.
      * left; right. congruence.
      * right. by exists hit'.
Qed.

Lemma object_ids_ok hits acc :
  is_ok (object_ids hits acc) = true ↔
  Forall (λ hit, ∃ a, getitem hit "objectID" = inr (VAtom a)) hits.
Proof.
  revert acc. induction hits as [|hit rest IH]; cbn [object_ids]; intros acc.
  - split; [by constructor|done].
  - destruct (getitem hit "objectID") as [e|object_id] eqn:Hid; cbn.
    { split; [done|]. intros [(a & Ha) _]%Forall_cons. congruence. }
    destruct object_id as [a0| |]; cbn.
    + rewrite IH, Forall_cons. split; [|by intros [_ ?]].
      intros ?. split; [by exists a0|done].
    + split; [done|]. intros [(a & Ha) _]%Forall_cons. congruence.
    + split; [done|]. intros [(a & Ha) _]%Forall_cons. congruence.
Qed.

(** The object ids of a page are those of its hits, duplicates collapsed;
    the call fails as soon as a hit is not a dict with a hashable
    [objectID]. *)
Theorem hit_object_ids_members d hits :
  d !! "hits" = Some (VList hits) →
  (is_ok (hit_object_ids (VDict d)) = true ↔
   Forall (λ hit, ∃ a, getitem hit "objectID" = inr (VAtom a)) hits) ∧
  (∀ ids, hit_object_ids (VDict d) = inr ids →
     ∀ a, a ∈ ids ↔
          ∃ hit, hit ∈ hits ∧ getitem hit "objectID" = inr (VAtom a)).
Proof.
  intros Hhits. unfold hit_object_ids. cbn [getitem]. rewrite Hhits. cbn.
  split; [apply object_ids_ok|].
  intros ids Hids a. rewrite (object_ids_spec _ _ _ Hids a).
  split; [|by right]. by intros [?%elem_of_empty|?].
Qed.

Lemma next_pages_returns algolia index pages all_object_ids s ids s' :
  hits_in_lists algolia index →
  next_pages algolia index pages all_object_ids s = (inr ids, s') →
  ids = all_object_ids ∧
  (calls s' = calls s ∧ pages = [] ∨
   ∃ i rest, pages = i :: rest ∧
             calls s' = (calls s ++ [Search index (Some i)])%list).
Proof.
  intros Hlists. destruct pages as [|i rest]; cbn [next_pages].
  { intros [= <- <-]. split; [done|]. by left. }
  unfold call, emit, lift. unfold mbind, M_bind, mret, M_ret.
  destruct (search algolia index (Some i)) as [e|next_page] eqn:Hsearch; [done|].
  destruct (getitem next_page "nbHits") as [e|nb_hits]; [done|].
  destruct (le_zero nb_hits) as [e|stop]; [done|].
  destruct stop.
  { intros [= <- <-]. split; [done|]. right. by exists i, rest. }
  destruct (Hlists _ _ Hsearch) as (hits & ->). cbn. done.
Qed.

(** Whenever the enumeration returns, with pages whose hits are lists, its
    result is the object ids of the first page alone, each once: it made
    one request, or two when the second page reported no hit. *)
Theorem list_remote_keys_first_page_only algolia index s remote_keys s' :
  hits_in_lists algolia index →
  list_remote_keys algolia index s = (inr remote_keys, s') →
  ∃ first_page first_page_hits,
    search algolia index None = inr first_page ∧
    hit_object_ids first_page = inr first_page_hits ∧
    NoDup remote_keys ∧
    (∀ a, a ∈ remote_keys ↔ a ∈ first_page_hits) ∧
    (calls s' = (calls s ++ [Search index None])%list ∨
     calls s' = (calls s ++ [Search index None; Search index (Some 1%Z)])%list).
Proof.
  intros Hlists.
  unfold list_remote_keys, call, emit, lift. unfold mbind, M_bind, mret, M_ret.
  destruct (search algolia index None) as [e|first_page] eqn:Hsearch; [done|].
  destruct (hit_object_ids first_page) as [e|first_page_hits] eqn:Hids; [done|].
  destruct (getitem first_page "nbPages") as [e|page_count] eqn:Hcount; [done|].
  destruct (range_from_1 page_count) as [e|pages] eqn:Hpages; [done|].
  destruct (next_pages _ _ _ _ _) as [[e|ids] s1] eqn:Hnext; [done|].
  intros [= <- <-].
  apply next_pages_returns in Hnext as [-> Hcalls]; [|done].
  exists first_page, first_page_hits. split; [done|]. split; [done|].
  split; [apply NoDup_elements|].
  split.
  { intros a. rewrite elem_of_elements. set_solver. }
  destruct Hcalls as [[Hcalls _]|(i & rest & Hcons & Hcalls)]; cbn in *.
  - left. by rewrite Hcalls.
  - right. rewrite Hcalls, <- app_assoc. cbn.
    destruct page_count as [[|n|]| |]; try done. injection Hpages as Hpages.
    rewrite Hcons in Hpages.
    destruct (decide (n - 1 ≤ 0)%Z).
    { by rewrite seqZ_nil in Hpages by done. }
    rewrite seqZ_cons in Hpages by lia. by injection Hpages as <- _.
Qed.

(** The enumeration asks for the first page, then for pages 1, 2, ... in
    order, and never for a page index that reaches the page count of the
    first answer. *)
Theorem list_remote_keys_page_bound algolia index s r s' first_page n :
  search algolia index None = inr first_page →
  getitem first_page "nbPages" = inr (VInt n) →
  list_remote_keys algolia index s = (r, s') →
  ∃ k : nat,
    calls s' =
      (calls s ++ Search index None ::
         (search_page index <$> seqZ 1 (Z.of_nat k)))%list ∧
    (Z.of_nat k ≤ Z.max 0 (n - 1))%Z ∧
    ∀ j, Search index (Some j) ∈ drop (length (calls s)) (calls s') →
         (1 ≤ j < n)%Z.
Proof.
  intros Hsearch Hcount Hrun.
  assert (∃ k : nat,
    calls s' =
      (calls s ++ Search index None ::
         (search_page index <$> seqZ 1 (Z.of_nat k)))%list ∧
    (Z.of_nat k ≤ Z.max 0 (n - 1))%Z) as (k & Hcalls & Hk).
  { revert Hrun.
    unfold list_remote_keys, call, emit, lift. unfold mbind, M_bind, mret, M_ret.
    rewrite Hsearch.
    destruct (hit_object_ids first_page) as [e|first_page_hits].
    { intros [= <- <-]. exists 0%nat. split; [done|lia]. }
    rewrite Hcount. cbn [range_from_1 ok].
    destruct (next_pages _ _ _ _ _) as [[e|ids] s1] eqn:Hnext;
      intros [= <- <-];
      apply next_pages_run in Hnext as (_ & _ & fetched & Hcalls & Hpre & _);
      cbn in Hcalls;
      exists (length fetched);
      pose proof (prefix_length _ _ Hpre) as Hlen;
      rewrite length_seqZ in Hlen;
      apply prefix_seqZ in Hpre; rewrite <- Hpre;
      (split; [cbn; by rewrite Hcalls, <- app_assoc|lia]). }
  exists k. split; [done|]. split; [done|].
  intros j. rewrite Hcalls, drop_app_length.
  intros [[=]|Hin]%elem_of_cons.
  apply list_elem_of_fmap in Hin as (j' & [= <-] & Hin).
  apply elem_of_seqZ in Hin. lia.
Qed.

Lemma traverse_error {A B} (f : A → result B) xs e :
  traverse f xs = inl e ↔
  ∃ pre x post,
    xs = (pre ++ x :: post)%list ∧
    Forall (λ y, is_ok (f y) = true) pre ∧ f x = inl e.
Proof.
  induction xs as [|x xs IH]; cbn [traverse].
  - split; [done|]. intros (pre & y & post & Hnil & _).
    by destruct pre.
  - destruct (f x) as [e'|y] eqn:Hfx; cbn.
    + split.
      * intros [= ->]. exists [], x, xs. by repeat split.
      * intros ([|x' pre] & y & post & Hcons & Hpre & Hy).
        -- injection Hcons as -> ->. congruence.
        -- injection Hcons as -> ->. apply Forall_cons in Hpre as [Hx _].
           by rewrite Hfx in Hx.
    + destruct (traverse f xs) as [e'|ys]; cbn.
      * split.
        -- intros [= ->]. destruct (proj1 IH eq_refl) as (pre & z & post & -> & ? & ?).
           exists (x :: pre), z, post. repeat split; [|done].
           apply Forall_cons. by rewrite Hfx.
        -- intros ([|x' pre] & z & post & Hcons & Hpre & Hz).
           ++ injection Hcons as -> ->. congruence.
           ++ injection Hcons as -> ->. apply Forall_cons in Hpre as [_ Hpre].
              apply IH. by exists pre, z, post.
      * split; [done|].
        intros ([|x' pre] & z & post & Hcons & Hpre & Hz).
        -- injection Hcons as -> ->. congruence.
        -- injection Hcons as -> ->. apply Forall_cons in Hpre as [_ Hpre].
           assert (@inr exn _ ys = inl e) as [=]. apply IH. by exists pre, z, post.
Qed.

(** The extraction keeps nothing when one record cannot be read: it raises
    the exception of the first record, in traversal order, whose own
    extraction raises, whatever comes after it. *)
Theorem get_all_records_first_error pad record e :
  get_all_records pad record = inl e ↔
  ∃ before n after,
    descendants record = (before ++ n :: after)%list ∧
    Forall (λ m, is_ok (child_data pad m) = true) before ∧
    child_data pad n = inl e.
Proof. rewrite get_all_records_traverse. apply traverse_error. Qed.

Lemma public_field_names_sublist model_fields names :
  public_field_names model_fields = inr names →
  names `sublist_of` (name <$> model_fields).
Proof.
  revert names. induction model_fields as [|field rest IH];
    cbn [public_field_names]; intros names.
  - by intros [= <-].
  - destruct (is_public_field field) as [|keep]; cbn; [done|].
    destruct (public_field_names rest) as [|names']; cbn; [done|].
    intros [= <-]. destruct keep.
    + apply sublist_skip. by apply IH.
    + apply sublist_cons. by apply IH.
Qed.

(** The projection of the field list fails, with an [IndexError], exactly
    when some field has an empty name; otherwise it keeps the public names
    in the order of the data model. *)
Theorem public_field_names_empty_name model_fields :
  (∀ e, public_field_names model_fields = inl e ↔
        e = IndexError ∧ ∃ field, field ∈ model_fields ∧ name field = "") ∧
  (∀ names, public_field_names model_fields = inr names →
            names `sublist_of` (name <$> model_fields)).
Proof.
  split; [|apply public_field_names_sublist].
  induction model_fields as [|field rest IH]; cbn [public_field_names]; intros e.
  - split; [done|]. by intros [_ (? & ?%elem_of_nil & _)].
  - unfold is_public_field at 1.
    destruct (name field) as [|c n] eqn:Hname; cbn.
    + split.
      * intros [= <-]. split; [done|]. exists field. split; [left|done].
      * by intros [-> _].
    + destruct (public_field_names rest) as [e'|names]; cbn.
      * split.
        -- intros [= ->]. destruct (proj1 (IH e) eq_refl) as [-> (fld & ? & ?)].
           split; [done|]. exists fld. split; [by right|done].
        -- intros [-> (fld & [-> | Hin]%elem_of_cons & Hfld)]; [congruence|].
           by destruct (proj1 (IH e') eq_refl) as [-> _].
      * split; [done|].
        intros [-> (fld & [-> | Hin]%elem_of_cons & Hfld)]; [congruence|].
        assert (@inr exn _ names = inl IndexError) as [=].
        apply IH. split; [done|]. by exists fld.
Qed.

(** An override that holds a username but no [password] entry makes the
    merge raise a [KeyError], after the username has already been written
    into the configured dict: the failed merge leaves its first update
    behind. *)
Theorem merge_credentials_partial_write config_creds d s c username :
  heap s !! config_creds = Some d →
  c !! "username" = Some username →
  truthy username = true →
  c !! "password" = None →
  ∃ s',
    merge_credentials config_creds (VDict c) s = (inl (KeyError "password"), s') ∧
    heap s' !! config_creds = Some (<["app_id" := username]> d) ∧
    calls s' = calls s.
Proof.
  intros Hd Husername Htruthy Hpassword.
  unfold merge_credentials, mbind, M_bind, lift, dict_setitem, mret, M_ret.
  assert (truthy (VDict c) = true) as ->.
  { cbn [truthy]. apply negb_true_iff, bool_decide_eq_false. intros ->.
    by rewrite lookup_empty in Husername. }
  cbn [getitem]. rewrite Husername, Hpassword. cbn [ok]. rewrite Htruthy.
  eexists. split; [reflexivity|]. cbn [heap calls].
  split; [|reflexivity]. by rewrite lookup_alter_eq, Hd.
Qed.

Lemma prefer_idempotent cli config : prefer cli (prefer cli config) = prefer cli config.
Proof. by destruct cli. Qed.

(** Merging the same override a second time changes nothing: the state
    after the first merge is a fixed point of the merge. *)
Theorem merge_credentials_idempotent
    config_creds d s cli_creds username password key s1 :
  heap s !! config_creds = Some d →
  cli_override cli_creds username password key →
  merge_credentials config_creds cli_creds s = (inr config_creds, s1) →
  merge_credentials config_creds cli_creds s1 = (inr config_creds, s1).
Proof.
  intros Hd Hcli Hrun.
  destruct (merge_credentials_override _ _ _ _ _ _ _ Hd Hcli)
    as (s1' & d1 & Hrun' & _ & _ & _ & Hd1 & Happ & Hkey & Hother).
  rewrite Hrun in Hrun'. injection Hrun' as <-.
  destruct (merge_credentials_override _ _ _ _ _ _ _ Hd1 Hcli)
    as (s2 & d2 & Hrun2 & _ & Hcreds2 & Hcalls2 & Hd2 & Happ2 & Hkey2 & Hother2).
  rewrite Hrun2. f_equal.
  pose proof (merge_credentials_frame _ _ _ _ _ Hrun2) as (_ & _ & Hframe & _).
  assert (d2 = d1) as ->.
  { apply map_eq. intros k.
    destruct (decide (k = "app_id")) as [->|?];
      [by rewrite Happ2, Happ, prefer_idempotent|].
    destruct (decide (k = "api_key")) as [->|?]; [|by apply Hother2].
    rewrite Hkey2, Hkey.
    destruct (supplied key), (supplied password); reflexivity. }
  assert (heap s2 = heap s1) as Hheap.
  { apply map_eq. intros l. destruct (decide (l = config_creds)) as [->|?].
    - by rewrite Hd2, Hd1.
    - by apply Hframe. }
  destruct s1, s2. cbn in *. by subst.
Qed.

(** With both credentials in the environment and no override, [get_index]
    creates the client and resolves the index; an [AlgoliaException] of the
    resolution becomes the [PublishError] that names the index, any other
    exception passes through, and a failing client creation is not caught. *)
Theorem get_index_outcomes algolia index_name s l d app_id api_key r s' :
  algolia_credentials s = Some l →
  heap s !! l = Some d →
  d !! "app_id" = Some app_id →
  d !! "api_key" = Some api_key →
  get_index algolia index_name VNone s = (r, s') →
  heap s' = heap s ∧
  match create algolia app_id api_key with
  | inl e => r = inl e ∧ calls s' = (calls s ++ [Create app_id api_key])%list
  | inr _ =>
      calls s' =
        (calls s ++ [Create app_id api_key; InitIndex index_name])%list ∧
      r = match init_index algolia index_name with
          | inr _ => inr index_name
          | inl (AlgoliaException _) => inl (PublishError (no_such_index index_name))
          | inl e => inl e
          end
  end.
Proof.
  intros Hcreds Hd Happ_id Hapi_key.
  unfold get_index, get_algolia_credentials, dict_read, call, emit, lift.
  unfold mbind, M_bind, mret, M_ret. rewrite Hcreds.
  change (merge_credentials l VNone s) with (@inr exn _ l, s).
  cbn [heap]. rewrite Hd. cbn [default from_option id].
  assert (bool_decide ("app_id" ∉ dom d) || bool_decide ("api_key" ∉ dom d) = false)
    as ->.
  { apply orb_false_iff. split; apply bool_decide_eq_false; intros Hnot;
      apply Hnot, elem_of_dom; by eexists. }
  cbn [getitem]. rewrite Happ_id, Hapi_key. cbn [ok].
  destruct (create algolia app_id api_key) as [e|[]].
  { by intros [= <- <-]. }
  destruct (init_index algolia index_name) as [[]|[]]; intros [= <- <-]; cbn;
    by rewrite <- app_assoc.
Qed.

(** When the credential dict of the environment lacks [app_id] or
    [api_key] and no override is given, [get_index] raises the
    configuration error without a call on the client and without touching
    the state. *)
Theorem get_index_missing_credentials algolia index_name s l d credentials :
  algolia_credentials s = Some l →
  heap s !! l = Some d →
  d !! "app_id" = None ∨ d !! "api_key" = None →
  truthy credentials = false →
  get_index algolia index_name credentials s =
    (inl (PublishError could_not_connect), s).
Proof.
  intros Hcreds Hd Hmissing Hfalsy.
  unfold get_index, get_algolia_credentials, dict_read, call, emit, lift.
  unfold mbind, M_bind, mret, M_ret. rewrite Hcreds.
  unfold merge_credentials, mbind, M_bind, mret, M_ret. rewrite Hfalsy.
  cbn [heap]. rewrite Hd. cbn [default from_option id].
  assert (bool_decide ("app_id" ∉ dom d) || bool_decide ("api_key" ∉ dom d) = true)
    as ->; [|done].
  apply orb_true_iff.
  destruct Hmissing as [H|H]; [left|right];
    apply bool_decide_eq_true; by apply not_elem_of_dom.
Qed.

(** Setting up the environment makes a new credential dict that holds both
    keys, with [None] for what the configuration lacks; the dicts that
    existed before, an overridden one included, are left as they were and
    are no longer the environment's. *)
Theorem on_setup_env_fresh config s r s' :
  on_setup_env config s = (r, s') →
  r = inr () ∧ calls s' = calls s ∧
  ∃ l d,
    l ∉ dom (heap s) ∧
    algolia_credentials s' = Some l ∧
    heap s' !! l = Some d ∧
    dom d = {[ "app_id"; "api_key" ]} ∧
    d !! "app_id" = Some (config_get config "app_id") ∧
    d !! "api_key" = Some (config_get config "api_key") ∧
    ∀ l', l' ∈ dom (heap s) → heap s' !! l' = heap s !! l'.
Proof.
  rewrite on_setup_env_run. intros [= <- <-]. cbn [heap algolia_credentials calls].
  split; [done|]. split; [done|].
  exists (fresh (dom (heap s))), (config_credentials config).
  split; [apply is_fresh|]. split; [done|].
  split; [apply lookup_insert_eq|].
  unfold config_credentials.
  split; [rewrite !dom_insert_L; set_solver|].
  split; [by rewrite lookup_insert_ne, lookup_insert_eq|].
  split; [by rewrite lookup_insert_eq|].
  intros l' Hl'. apply lookup_insert_ne. intros <-. by apply is_fresh in Hl'.
Qed.

Lemma not_close_setup tr : Forall (λ e, is_setup e = true) tr → Close ∉ tr.
Proof.
  intros Hsetup Hin. rewrite Forall_forall in Hsetup. by apply Hsetup in Hin.
Qed.

Lemma close_diff_calls algolia index keys local :
  Close ∈ diff_calls algolia index keys local ↔
  diff_result algolia index keys local = inr ().
Proof.
  unfold diff_calls, diff_result.
  destruct (delete_objects algolia index keys) as [e|res_delete]; cbn.
  { split; [|done]. intros [[=]|?%elem_of_nil]%elem_of_cons. done. }
  destruct (save_objects algolia index local) as [e|res_add]; cbn.
  - split; [|done].
    intros Hin. repeat (apply elem_of_cons in Hin as [[=]|Hin]).
    by apply elem_of_nil in Hin.
  - split; [done|]. intros _. do 5 right. left.
Qed.

(** The connection is closed exactly by the runs that complete: a run that
    raises, at whatever step, never calls [close], and a run that completes
    calls it last. *)
Theorem publish_closes_on_success algolia pad target_url credentials s r s' :
  publish algolia pad target_url credentials s = (r, s') →
  ∃ tr, calls s' = (calls s ++ tr)%list ∧
        (Close ∈ tr ↔ r = inr ()) ∧
        (r = inr () → last tr = Some Close).
Proof.
  intros H. apply publish_run in H
    as (setup & _ & _ & _ & _ & Hsetup &
        [[-> Hr]|(local & local_keys & k & _ & _ & _ &
                 [[-> Hr]|(remote_keys & _ & _ & _ & -> & ->)])]);
    (eexists; split; [done|]).
  - split; [|by intros ->]. split; [|by intros ->].
    intros Hin. by apply not_close_setup in Hin.
  - split; [|by intros ->]. split; [|by intros ->].
    intros [Hin|Hin]%elem_of_app; [by apply not_close_setup in Hin|].
    apply elem_of_cons in Hin as [[=]|Hin].
    apply elem_of_cons in Hin as [[=]|Hin].
    by apply list_elem_of_fmap in Hin as (? & [=] & _).
  - split.
    + rewrite <- close_diff_calls. split.
      * intros [Hin|Hin]%elem_of_app; [by apply not_close_setup in Hin|].
        apply elem_of_cons in Hin as [[=]|Hin].
        apply elem_of_cons in Hin as [[=]|Hin].
        apply elem_of_app in Hin as [Hin|Hin].
        { by apply list_elem_of_fmap in Hin as (? & [=] & _). }
        apply elem_of_cons in Hin as [[=]|Hin].
        by apply elem_of_cons in Hin as [[=]|Hin].
      * intros Hin. apply elem_of_app. right.
        do 2 right. apply elem_of_app. right. by do 2 right.
    + unfold diff_result, diff_calls.
      destruct (delete_objects _ _ _); [done|].
      destruct (save_objects _ _ _); [done|]. intros _.
      rewrite !last_app. reflexivity.
Qed.

(** When the local extraction raises, the run raises as well, having made
    no search and no write request: all it has done is set up the client. *)
Theorem publish_extraction_failure
    algolia pad target_url credentials s r s' e :
  list_local pad = inl e →
  publish algolia pad target_url credentials s = (r, s') →
  is_ok r = false ∧
  ∃ tr, calls s' = (calls s ++ tr)%list ∧
        Forall (λ event, is_setup event = true) tr ∧
        ((get_index algolia (netloc target_url) credentials s).1
           = inr (netloc target_url) → r = inl e).
Proof.
  intros Hlocal H. pose proof H as Hrun. apply publish_run in H
    as (setup & rg & sg & Hget & _ & Hsetup &
        [[-> Hr]|(local & local_keys & k & Hlocal' & _)]); [|congruence].
  split; [done|]. exists setup. split; [done|]. split; [done|].
  rewrite Hget. cbn. intros ->.
  revert Hrun. unfold publish, mbind at 1, M_bind at 1. rewrite Hget.
  unfold mbind at 1, M_bind at 1, lift at 1. rewrite Hlocal. by intros [= <- _].
Qed.

(** Deleting the computed keys from the remote keys and adding the local
    ones leaves exactly the local keys; no key to delete is a local key. *)
Theorem keys_to_delete_mirrors_local remote_keys local_keys :
  (list_to_set remote_keys ∖
     list_to_set (keys_to_delete remote_keys local_keys)) ∪ local_keys
    = local_keys ∧
  (∀ a, a ∈ keys_to_delete remote_keys local_keys → a ∉ local_keys).
Proof.
  destruct (keys_to_delete_spec remote_keys local_keys) as [_ Hspec].
  split.
  - apply set_eq. intros a.
    rewrite elem_of_union, elem_of_difference, !elem_of_list_to_set, Hspec.
    destruct (decide (a ∈ local_keys)); tauto.
  - intros a. rewrite Hspec. tauto.
Qed.

(** The records that the extraction returns all carry an [objectID], so the
    set of local keys is always built: it is the set of the [_gid] of the
    records below the root. *)
Theorem local_keys_of_extraction pad local :
  list_local pad = inr local →
  ∃ local_keys,
    local_object_ids local ∅ = inr local_keys ∧
    ∀ a, a ∈ local_keys ↔
         ∃ n, n ∈ descendants (root pad) ∧ a = AStr (gid n).
Proof.
  unfold list_local. rewrite get_all_records_traverse.
  generalize (descendants (root pad)). intros nodes Htraverse.
  assert (Hall : Forall2 (λ n record, record !! "objectID" = Some (gid n))
                   nodes local).
  { revert local Htraverse. induction nodes as [|n nodes IH]; cbn [traverse].
    - intros local [= <-]. constructor.
    - intros local. destruct (child_data pad n) as [|record] eqn:Hrecord; [done|].
      cbn. destruct (traverse (child_data pad) nodes) as [|records]; [done|].
      cbn. intros [= <-]. constructor; [|by apply IH].
      by apply child_data_system_fields in Hrecord as [? _]. }
  clear Htraverse.
  assert (∀ acc, ∃ local_keys,
    local_object_ids local acc = inr local_keys ∧
    ∀ a, a ∈ local_keys ↔ a ∈ acc ∨ ∃ n, n ∈ nodes ∧ a = AStr (gid n)) as Hkeys.
  { induction Hall as [|n record nodes local Hid _ IH]; intros acc;
      cbn [local_object_ids].
    - exists acc. split; [done|]. intros a. split; [by left|].
      by intros [?|(? & ?%elem_of_nil & _)].
    - rewrite Hid. destruct (IH (acc ∪ {[AStr (gid n)]})) as (keys & -> & Hkeys).
      exists keys. split; [done|]. intros a.
      rewrite Hkeys, elem_of_union, elem_of_singleton. split.
      + intros [[?| ->]|(m & ? & ->)]; [by left|..].
        * right. exists n. split; [left|done].
        * right. exists m. split; [by right|done].
      + intros [?|(m & [-> | ?]%elem_of_cons & ->)].
        * by left; left.
        * by left; right.
        * right. by exists m. }
  destruct (Hkeys ∅) as (keys & Hrun & Hmem). exists keys. split; [done|].
  intros a. rewrite Hmem. split; [|by right]. by intros [?%elem_of_empty|?].
Qed.

Lemma hit_object_ids_members_witness :
  (is_ok (hit_object_ids (result_page [hit "x1"; hit "x2"; hit "x1"] 3 1)) = true ↔
   Forall (λ h, ∃ a, getitem h "objectID" = inr (VAtom a))
          [hit "x1"; hit "x2"; hit "x1"]) ∧
  (∀ ids, hit_object_ids (result_page [hit "x1"; hit "x2"; hit "x1"] 3 1) = inr ids →
     ∀ a, a ∈ ids ↔
          ∃ h, h ∈ [hit "x1"; hit "x2"; hit "x1"] ∧
               getitem h "objectID" = inr (VAtom a)).
Proof.
  apply (hit_object_ids_members _ [hit "x1"; hit "x2"; hit "x1"]).
  reflexivity.
Defined.

Lemma hits_in_lists_short_index : hits_in_lists short_index "site".
Proof.
  intros i next_page. cbn.
  destruct (decide (i = 1%Z)) as [->|?]; [intros [= <-]; by eexists|].
  destruct (decide (i = 2%Z)) as [->|?]; [intros [= <-]; by eexists|].
  rewrite !lookup_insert_ne, lookup_empty by done. intros [= <-]. by eexists.
Qed.

Lemma list_remote_keys_first_page_only_witness :
  ∃ first_page first_page_hits,
    search short_index "site" None = inr first_page ∧
    hit_object_ids first_page = inr first_page_hits ∧
    NoDup [AStr "a"] ∧
    (∀ a, a ∈ [AStr "a"] ↔ a ∈ first_page_hits) ∧
    (calls (list_remote_keys short_index "site" configured).2 =
       (calls configured ++ [Search "site" None])%list ∨
     calls (list_remote_keys short_index "site" configured).2 =
       (calls configured ++ [Search "site" None; Search "site" (Some 1%Z)])%list).
Proof.
  apply (list_remote_keys_first_page_only short_index "site" configured).
  - apply hits_in_lists_short_index.
  - vm_compute. reflexivity.
Defined.

Lemma list_remote_keys_page_bound_witness :
  ∃ k : nat,
    calls (list_remote_keys two_page_index "site" configured).2 =
      (calls configured ++ Search "site" None ::
         (search_page "site" <$> seqZ 1 (Z.of_nat k)))%list ∧
    (Z.of_nat k ≤ Z.max 0 (2 - 1))%Z ∧
    ∀ j, Search "site" (Some j) ∈
           drop (length (calls configured))
                (calls (list_remote_keys two_page_index "site" configured).2) →
         (1 ≤ j < 2)%Z.
Proof.
  apply (list_remote_keys_page_bound two_page_index "site" configured
           (list_remote_keys two_page_index "site" configured).1 _
           (result_page [hit "a"] 2 2) 2).
  - reflexivity.
  - reflexivity.
  - vm_compute. reflexivity.
Defined.

Example get_all_records_nameless :
  get_all_records broken_pad (root broken_pad) = inl IndexError.
Proof. vm_compute. reflexivity. Qed.

Lemma merge_credentials_partial_write_witness :
  ∃ s',
    merge_credentials 1%positive (VDict {[ "username" := VStr "U" ]}) configured
      = (inl (KeyError "password"), s') ∧
    heap s' !! 1%positive =
      Some (<["app_id" := VStr "U"]> (config_credentials configuration)) ∧
    calls s' = calls configured.
Proof.
  apply (merge_credentials_partial_write 1%positive
           (config_credentials configuration) configured
           {[ "username" := VStr "U" ]} (VStr "U")).
  - reflexivity.
  - reflexivity.
  - reflexivity.
  - reflexivity.
Defined.

Lemma merge_credentials_idempotent_witness :
  merge_credentials 1%positive override
    (merge_credentials 1%positive override configured).2 =
  (inr 1%positive, (merge_credentials 1%positive override configured).2).
Proof.
  apply (merge_credentials_idempotent 1%positive
           (config_credentials configuration) configured override
           (Some "U") None (Some "K2")).
  - reflexivity.
  - apply given_credentials; vm_compute; reflexivity.
  - vm_compute. reflexivity.
Defined.

Lemma get_index_outcomes_witness :
  (get_index missing_index "site" VNone configured).1 =
    inl (PublishError (no_such_index "site")) ∧
  calls (get_index missing_index "site" VNone configured).2 =
    [Create (VStr "A") (VStr "K"); InitIndex "site"].
Proof.
  destruct (get_index_outcomes missing_index "site" configured 1%positive
              (config_credentials configuration) (VStr "A") (VStr "K")
              (get_index missing_index "site" VNone configured).1
              (get_index missing_index "site" VNone configured).2)
    as [_ [Hcalls Hr]].
  - reflexivity.
  - reflexivity.
  - reflexivity.
  - reflexivity.
  - vm_compute. reflexivity.
  - split; [exact Hr|exact Hcalls].
Defined.

Lemma get_index_missing_credentials_witness :
  get_index one_page_index "site" VNone keyless =
    (inl (PublishError could_not_connect), keyless).
Proof.
  apply (get_index_missing_credentials one_page_index "site" keyless 1%positive
           {[ "app_id" := VStr "A" ]} VNone).
  - reflexivity.
  - reflexivity.
  - right. reflexivity.
  - reflexivity.
Defined.

Lemma on_setup_env_fresh_witness :
  (on_setup_env {[ "app_id" := "A" ]} configured).1 = inr () ∧
  calls (on_setup_env {[ "app_id" := "A" ]} configured).2 = calls configured ∧
  ∃ l d,
    l ∉ dom (heap configured) ∧
    algolia_credentials (on_setup_env {[ "app_id" := "A" ]} configured).2 = Some l ∧
    heap (on_setup_env {[ "app_id" := "A" ]} configured).2 !! l = Some d ∧
    dom d = {[ "app_id"; "api_key" ]} ∧
    d !! "app_id" = Some (config_get {[ "app_id" := "A" ]} "app_id") ∧
    d !! "api_key" = Some (config_get {[ "app_id" := "A" ]} "api_key") ∧
    ∀ l', l' ∈ dom (heap configured) →
          heap (on_setup_env {[ "app_id" := "A" ]} configured).2 !! l'
            = heap configured !! l'.
Proof.
  apply (on_setup_env_fresh {[ "app_id" := "A" ]} configured).
  apply surjective_pairing.
Defined.

Lemma publish_closes_on_success_witness :
  ∃ tr, calls one_page_run.2 = (calls configured ++ tr)%list ∧
        (Close ∈ tr ↔ one_page_run.1 = inr ()) ∧
        (one_page_run.1 = inr () → last tr = Some Close).
Proof.
  apply (publish_closes_on_success one_page_index hello_pad target VNone
           configured).
  apply surjective_pairing.
Defined.

Lemma publish_extraction_failure_witness :
  is_ok (publish one_page_index broken_pad target VNone configured).1 = false ∧
  ∃ tr,
    calls (publish one_page_index broken_pad target VNone configured).2
      = (calls configured ++ tr)%list ∧
    Forall (λ event, is_setup event = true) tr ∧
    ((get_index one_page_index (netloc target) VNone configured).1
       = inr (netloc target) →
     (publish one_page_index broken_pad target VNone configured).1
       = inl IndexError).
Proof.
  apply (publish_extraction_failure one_page_index broken_pad target VNone
           configured).
  - vm_compute. reflexivity.
  - apply surjective_pairing.
Defined.

Lemma local_keys_of_extraction_witness :
  ∃ local_keys,
    local_object_ids [hello_document] ∅ = inr local_keys ∧
    ∀ a, a ∈ local_keys ↔
         ∃ n, n ∈ descendants (root hello_pad) ∧ a = AStr (gid n).
Proof.
  apply (local_keys_of_extraction hello_pad [hello_document]).
  vm_compute. reflexivity.
Defined.
